(** * crawl-ref/source/random.h: a shallow embedding and its properties

    The header declares the random-number primitives of the game and defines,
    as templates, the weighted-choice algorithms, the shuffle and the generic
    [x_chance_in_y] dispatcher.  The templates are embedded here as written;
    the primitives whose bodies live in random.cc (not part of the header) are
    modelled from the specification and marked as such. *)

From Stdlib Require Import ZArith List Lia QArith Qcanon Qround Permutation Field.
From stdpp Require Import base numbers list gmap.

Local Open Scope Z_scope.

(** ** Machine integers *)

(** The C++ [int] of the header is a 32-bit two's complement integer.  It is
    represented by a [Z]; additions go through [wrap], which writes the
    wrap-around out.  (Signed overflow is outside the contract of every
    function of the header, so the theorems that depend on sums assume that
    they fit.) *)
Module Int.

Definition INT_MAX : Z := 2147483647.
Definition INT_MIN : Z := -2147483648.
Definition modulus : Z := 4294967296.

Definition wrap (z : Z) : Z := (z + 2147483648) mod modulus - 2147483648.

Definition add (a b : Z) : Z := wrap (a + b).

Definition in_range (z : Z) : Prop := INT_MIN <= z <= INT_MAX.

End Int.

(** ** The bit source *)

(** Modelled from the spec: [get_uint32] is declared in the header and defined
    elsewhere; the specification treats it as an opaque oracle producing
    32-bit values, each call advancing the stream's state exactly once.  The
    oracle is a stream of raw words together with a read position, so that
    every sequence of outputs is the run of some generator. *)
Record rng : Type := Rng { raw : nat -> Z; pos : nat }.

Definition get_uint32 (g : rng) : Z * rng :=
  (raw g (pos g) mod Int.modulus, Rng (raw g) (S (pos g))).

(** ** Randomised computations *)

(** The templates of the header are pure code around calls to [random2].
    They are embedded once, as trees whose nodes are the calls to [random2]
    and whose branches are indexed by the value drawn, and read twice: [run]
    executes a tree against a generator, [prob] weighs its outcomes with
    [random2] uniform. *)
Inductive Rand (A : Type) : Type :=
  | Ret (a : A)
  | Random2 (max : Z) (k : Z -> Rand A).
Arguments Ret {A} a.
Arguments Random2 {A} max k.

Fixpoint Rand_bind {A B : Type} (f : A -> Rand B) (t : Rand A) : Rand B :=
  match t with
  | Ret a => f a
  | Random2 max k => Random2 max (fun r => Rand_bind f (k r))
  end.

#[global] Instance Rand_mret : MRet Rand := @Ret.
#[global] Instance Rand_mbind : MBind Rand := @Rand_bind.

(** Modelled from the spec: [int random2(int max)], declared in the header
    and defined in random.cc, returns a uniform integer in [0, max), and 0
    when [max <= 0].  It is the one primitive of the trees; [run] and [prob]
    below give it that meaning. *)
Definition random2 (max : Z) : Rand Z := Random2 max Ret.

Fixpoint run {A : Type} (t : Rand A) (g : rng) : A * rng :=
  match t with
  | Ret a => (a, g)
  | Random2 max k =>
      if max <=? 0 then run (k 0) g
      else let '(u, g') := get_uint32 g in run (k (u mod max)) g'
  end.

(** Finite sums of rationals, over the indices below [n]. *)
Fixpoint sumQc (n : nat) (f : nat -> Qc) : Qc :=
  match n with
  | O => 0%Qc
  | S m => (sumQc m f + f m)%Qc
  end.

(** The probability that the outcome of [t] satisfies [P], every call
    [random2 max] with [max > 0] being uniform over [0, max). *)
Fixpoint prob {A : Type} (P : A -> bool) (t : Rand A) : Qc :=
  match t with
  | Ret a => if P a then 1%Qc else 0%Qc
  | Random2 max k =>
      if max <=? 0 then prob P (k 0)
      else (sumQc (Z.to_nat max) (fun r => prob P (k (Z.of_nat r)))
            / Qc_of_Z max)%Qc
  end.

(** Modelled from the spec: [bool x_chance_in_y(int x, int y)], declared in
    the header and defined in random.cc, is true with probability [x/y] when
    [y > 0], always false when [x <= 0] and always true when [x >= y]. *)
Definition x_chance_in_y (x y : Z) : Rand bool :=
  if x <=? 0 then mret false
  else if y <=? x then mret true
  else r ← random2 y; mret (r <? x).

(** ** Uniform choices *)

(** [random_choose(T first, Ts... rest)]: the array [elts] holds the
    arguments; the number of arguments is a [size_t], converted to [int] where
    it is passed to [random2].  Reading [elts] at an index yields [None] when
    the index is outside the array. *)
Definition random_choose {T : Type} (first : T) (rest : list T)
  : Rand (option T) :=
  let elts := first :: rest in
  i ← random2 (Int.wrap (Z.of_nat (1 + length rest)));
  mret (elts !! Z.to_nat i).

(** [random_choose_ref(T& first, Ts&... rest)]: [random_choose] on the
    addresses of the arguments, the address of an argument being its
    position; the reference returned is the address chosen. *)
Definition random_choose_ref {T : Type} (first : T) (rest : list T)
  : Rand (option nat) :=
  random_choose 0%nat (seq 1 (length rest)).

(** [random_iterator(C &container)]: [container.begin()] is position 0, and
    [advance(it, pos)] moves the iterator [pos] positions forward. *)
Definition random_iterator {A : Type} (container : list A) : Rand nat :=
  pos ← random2 (Int.wrap (Z.of_nat (length container)));
  let it := 0%nat in
  mret (it + Z.to_nat pos)%nat.

(** ** Weighted selection *)

(** A pointer or iterator into a sequence is the position it designates;
    [nullptr] is [None]. *)
Section WeightedSelection.
Context {K : Type}.

(** [random_choose_weighted(V &choices)], over a map or a vector of pairs:
    the entries in iteration order, each a choice and its [int] weight.
    The result is the position of the entry whose [first] is pointed to. *)
Definition total_weight (choices : list (K * Z)) : Z :=
  foldl (fun total entry => Int.add total entry.2) 0 choices.

Fixpoint scan_choices (r sum : Z) (i : nat) (choices : list (K * Z))
  : option nat :=
  match choices with
  | [] => None
  | entry :: rest =>
      let sum := Int.add sum entry.2 in
      if r <? sum then Some i else scan_choices r sum (S i) rest
  end.

Definition random_choose_weighted (choices : list (K * Z))
  : Rand (option nat) :=
  let total := total_weight choices in
  r ← random2 total;
  mret (scan_choices r 0 0 choices).

(** The choice a returned pointer designates. *)
Definition deref (choices : list (K * Z)) (p : nat) : option K :=
  fst <$> choices !! p.

(** [random_choose_weighted(int cweight, T curr, int nweight, T next,
    Args... args)]: the argument pack after [curr] is the list of the
    remaining (weight, value) pairs. *)
Fixpoint random_choose_weighted_args (cweight : Z) (curr : K)
    (args : list (Z * K)) : Rand K :=
  match args with
  | [] => mret curr
  | (nweight, next) :: args =>
      r ← random2 (Int.add cweight nweight);
      random_choose_weighted_args (Int.add cweight nweight)
        (if r <? nweight then next else curr) args
  end.

(** [random_choose_weighted(Iterator xs, WeightFn weight)]: [xs] is the
    position of the cursor, [rest] what remains of the sequence from there;
    a cursor converts to false exactly when nothing remains. *)
Fixpoint random_choose_weighted_loop (weight : K -> Z) (result : nat)
    (found : bool) (totalweight : Z) (xs : nat) (rest : list K)
  : Rand nat :=
  match rest with
  | [] => mret (if found then result else xs)
  | x :: rest =>
      let cweight := weight x in
      let totalweight := Int.add totalweight cweight in
      b ← x_chance_in_y cweight totalweight;
      if b : bool
      then random_choose_weighted_loop weight xs true totalweight (S xs) rest
      else random_choose_weighted_loop weight result found totalweight
             (S xs) rest
  end.

Definition random_choose_weighted_iter (seq : list K) (weight : K -> Z)
  : Rand nat :=
  random_choose_weighted_loop weight 0%nat false 0 0%nat seq.

(** [random_choose_weighted(Iterator start, Iterator end, WeightFn weight)]:
    the range is [seq], [start] its current position and [end_] the
    position past its last element. *)
Fixpoint random_choose_weighted_range_loop (weight : K -> Z) (result : nat)
    (totalweight : Z) (start : nat) (rest : list K) : Rand nat :=
  match rest with
  | [] => mret result
  | x :: rest =>
      let cweight := weight x in
      let totalweight := Int.add totalweight cweight in
      b ← x_chance_in_y cweight totalweight;
      random_choose_weighted_range_loop weight
        (if b : bool then start else result) totalweight (S start) rest
  end.

Definition random_choose_weighted_range (seq : list K) (weight : K -> Z)
  : Rand nat :=
  let end_ := length seq in
  random_choose_weighted_range_loop weight end_ 0 0%nat seq.
End WeightedSelection.

(** [random_choose_weighted(const FixedVector<T, SIZE>& choices)]: the vector
    is the list of its [SIZE] weights. *)
Definition fixed_total (choices : list Z) : Z :=
  foldl (fun total weight => if 0 <? weight then Int.add total weight else total)
        0 choices.

Fixpoint fixed_scan (r sum i : Z) (choices : list Z) : Z :=
  match choices with
  | [] => -1
  | c :: rest =>
      if c <=? 0 then fixed_scan r sum (i + 1) rest
      else
        let sum := Int.add sum c in
        if r <? sum then i else fixed_scan r sum (i + 1) rest
  end.

Definition random_choose_weighted_fixed (choices : list Z) : Rand Z :=
  let total := fixed_total choices in
  r ← random2 total;
  mret (fixed_scan r 0 0 choices).

(** The outcome of a function that ends in an assertion. *)
Inductive asserted (A : Type) : Type :=
  | AssertFailed
  | Returned (a : A).
Arguments AssertFailed {A}.
Arguments Returned {A} a.

(** Modelled from the spec: the macro [ASSERT] is defined outside the header;
    a violated invariant fails loudly (assertion, fatal) instead of letting
    the function return. *)
Definition ASSERT {A : Type} (cond : bool) (a : A) : asserted A :=
  if cond then Returned a else AssertFailed.

(** [choose_random_weighted(Iterator beg, const Iterator end)]: [beg] is what
    remains of the range of weights, [count] the position reached. *)
Fixpoint choose_random_weighted_loop (totalweight result count : Z)
    (beg : list Z) : Rand Z :=
  match beg with
  | [] => mret result
  | w :: beg =>
      let totalweight := Int.add totalweight w in
      r ← random2 totalweight;
      choose_random_weighted_loop totalweight
        (if r <? w then count else result) (count + 1) beg
  end.

Definition choose_random_weighted (range : list Z) : Rand (asserted Z) :=
  result ← choose_random_weighted_loop 0 (-1) 0 range;
  mret (ASSERT (0 <=? result) result).

(** ** Shuffle *)

(** [iter_swap(begin + i, begin + j)] on the sequence starting at [begin]. *)
Definition iter_swap {A : Type} (i j : nat) (l : list A) : list A :=
  match l !! i, l !! j with
  | Some x, Some y => <[j := x]> (<[i := y]> l)
  | _, _ => l
  end.

(** [shuffle_array(I begin, I end)]: [n] is the [size_t] counter of the loop,
    converted to [int] where it is passed to [random2]. *)
Fixpoint shuffle_array_loop {A : Type} (n : nat) (l : list A) : Rand (list A) :=
  match n with
  | O => mret l
  | S n' =>
      if (n' =? 0)%nat then mret l
      else
        i ← random2 (Int.wrap (Z.of_nat n));
        shuffle_array_loop n' (iter_swap (Z.to_nat i) n' l)
  end.

Definition shuffle_array {A : Type} (l : list A) : Rand (list A) :=
  shuffle_array_loop (length l) l.

(** [shuffle_array(T &vec)]: the range from [begin(vec)] to [end(vec)]. *)
Definition shuffle_array_vec {A : Type} (vec : list A) : Rand (list A) :=
  shuffle_array vec.

(** [shuffle_array(T *arr, int n)]: the range from [arr] to [arr + n], inside
    the array [arr] points into; [n] is between 0 and the length of that
    array (the pointer arithmetic is undefined otherwise). *)
Definition shuffle_array_ptr {A : Type} (arr : list A) (n : Z)
  : Rand (list A) :=
  shuffle_array_loop (Z.to_nat n) arr.


(** ** The generic [x_chance_in_y] *)

(** Floating-point arithmetic is a parameter of the development: the carrier
    of [double], the conversions between it and the integers, its comparison
    and division, and [double random_real()], which the header declares and
    random.cc defines. *)
Class FloatModel : Type := {
  double : Type;
  double_of_int : Z -> double;
  int_of_double : double -> Z;
  double_le : double -> double -> bool;
  double_lt : double -> double -> bool;
  double_div : double -> double -> double;
  random_real : rng -> double * rng
}.

(** The arithmetic types a call of the template can be instantiated at. *)
Inductive numeric : Type :=
  | t_char | t_short | t_int | t_unsigned | t_long_long | t_size_t
  | t_float | t_double.

Definition is_floating_point (T : numeric) : bool :=
  match T with
  | t_float | t_double => true
  | _ => false
  end.

Section Generic.
Context `{FloatModel}.

(** The values of type [T]: integers for the integral types, elements of the
    carrier of [double] (of which [float] is a part) for the others. *)
Definition value (T : numeric) : Type :=
  if is_floating_point T then double else Z.

(** The conversion [double(x)]. *)
Definition to_double (T : numeric) : value T -> double :=
  match T return value T -> double with
  | t_float | t_double => fun x => x
  | _ => fun x => double_of_int x
  end.

(** The conversion [int(x)]: modular for the integral types, truncating for
    the floating-point ones. *)
Definition to_int (T : numeric) : value T -> Z :=
  match T return value T -> Z with
  | t_float | t_double => fun x => Int.wrap (int_of_double x)
  | _ => fun x => Int.wrap x
  end.

(** Modelled from the spec: [bool x_chance_in_y(double x, double y)],
    declared in the header and defined in random.cc, is true with probability
    [x/y] when [y > 0], always false when [x <= 0] and always true when
    [x >= y]. *)
Definition x_chance_in_y_double (x y : double) (g : rng) : bool * rng :=
  if double_le x (double_of_int 0) then (false, g)
  else if double_le y x then (true, g)
  else let '(u, g') := random_real g in (double_lt u (double_div x y), g').

(** [template <typename T, typename U> bool x_chance_in_y(T x, U y)]. *)
Definition x_chance_in_y_generic (T U : numeric) (x : value T) (y : value U)
  : rng -> bool * rng :=
  if is_floating_point T || is_floating_point U
  then x_chance_in_y_double (to_double T x) (to_double U y)
  else run (x_chance_in_y (to_int T x) (to_int U y)).
End Generic.

(** Rational numbers as a stand-in for [double], to evaluate the definitions
    above on concrete arguments. *)
Definition Qc_floor (q : Qc) : Z := Qfloor q.

Definition Qc_trunc (q : Qc) : Z :=
  if bool_decide (0 ≤ q)%Qc then Qc_floor q else - Qc_floor (- q)%Qc.

#[global] Instance rational_floats : FloatModel := {|
  double := Qc;
  double_of_int := Qc_of_Z;
  int_of_double := Qc_trunc;
  double_le := fun x y => bool_decide (x ≤ y)%Qc;
  double_lt := fun x y => bool_decide (x < y)%Qc;
  double_div := Qcdiv;
  random_real := fun g =>
    let '(u, g') := get_uint32 g in
    ((Qc_of_Z u / Qc_of_Z Int.modulus)%Qc, g')
|}.

(** ** The deferred random tree *)

Module defer_rand.

(** [class defer_rand]: the words generated so far for the node, and its
    children. *)
#[warnings="-register-all"]
Inductive t : Type :=
  Node { bits : list Z; children : gmap Z t }.

(** A node on which no method has been called yet. *)
Definition fresh : t := Node [] ∅.

(** Modelled from the spec: the bodies of the methods are in random.cc.  The
    first time a method is called on a node, a random fraction between 0 and
    1 is generated and stored; it is never generated again.  The fraction is
    held by [bits], read as the digits of a number in base 2^32. *)
Definition fraction_of (bits : list Z) : Qc :=
  foldr (fun b acc => ((Qc_of_Z b + acc) / Qc_of_Z Int.modulus)%Qc) 0%Qc bits.

Definition fraction (nd : t) : Qc := fraction_of (bits nd).

(** Modelled from the spec: the first access to a node, which generates its
    fraction (one word of the bit source) if it has none yet. *)
Definition resolve (nd : t) (g : rng) : t * rng :=
  match bits nd with
  | [] => let '(u, g') := get_uint32 g in (Node [u] (children nd), g')
  | _ :: _ => (nd, g)
  end.

(** Modelled from the spec: [x_chance_in_y(x, y)] is true iff the node's
    stored fraction is less than [x/y]. *)
Definition x_chance_in_y (x y : Z) (nd : t) (g : rng) : bool * (t * rng) :=
  let '(nd', g') := resolve nd g in
  (bool_decide (fraction nd' < Qc_of_Z x / Qc_of_Z y)%Qc, (nd', g')).

(** [one_chance_in(a_million)], as the header defines it. *)
Definition one_chance_in (a_million : Z) (nd : t) (g : rng)
  : bool * (t * rng) :=
  x_chance_in_y 1 a_million nd g.

(** Modelled from the spec: [random2(maxp1)] is the floor of the stored
    fraction times [maxp1]. *)
Definition random2 (maxp1 : Z) (nd : t) (g : rng) : Z * (t * rng) :=
  let '(nd', g') := resolve nd g in
  (Qc_floor (fraction nd' * Qc_of_Z maxp1)%Qc, (nd', g')).

(** The words of a node are 32-bit values. *)
Definition wf (nd : t) : Prop :=
  Forall (fun b => 0 <= b < Int.modulus) (bits nd).

End defer_rand.

(** ** Reference notions for the statements *)

(** A generator to evaluate the definitions on. *)
Definition sample_rng : rng :=
  Rng (fun n => Z.of_nat (S n) * 2654435761) 0.

(** The sum of the weights of a collection, as a mathematical integer. *)
Definition sum_weights {K : Type} (choices : list (K * Z)) : Z :=
  foldr (fun entry acc => entry.2 + acc) 0 choices.

(** The contract of the weighted choices: weights are non-negative, and
    their sum is an [int]. *)
Definition weights_ok {K : Type} (choices : list (K * Z)) : Prop :=
  Forall (fun entry => 0 <= entry.2) choices /\
  sum_weights choices <= Int.INT_MAX.

(** The running sum of the weights up to and including entry [i]. *)
Definition running_sum {K : Type} (choices : list (K * Z)) (i : nat) : Z :=
  sum_weights (take (S i) choices).

(** The first entry at which the running sum exceeds [r]. *)
Definition first_exceeding {K : Type} (r : Z) (choices : list (K * Z))
  : option nat :=
  snd <$> list_find (fun i => r < running_sum choices i)
                    (seq 0 (length choices)).

(** The sum of the weights a fixed vector retains. *)
Definition sum_positive (choices : list Z) : Z :=
  foldr (fun weight acc => Z.max 0 weight + acc) 0 choices.

(** The entries a fixed vector retains, each with its index, in order. *)
Fixpoint retained_from (i : Z) (choices : list Z) : list (Z * Z) :=
  match choices with
  | [] => []
  | c :: rest =>
      if c <=? 0 then retained_from (i + 1) rest
      else (i, c) :: retained_from (i + 1) rest
  end.

Definition retained (choices : list Z) : list (Z * Z) :=
  retained_from 0 choices.

(** The collection of (choice, weight) pairs a cursor with a weight function
    ranges over. *)
Definition weighted {K : Type} (weight : K -> Z) (seq : list K)
  : list (K * Z) :=
  (fun x => (x, weight x)) <$> seq.

(** The collection of (choice, weight) pairs an argument list spells out. *)
Definition swapped {K : Type} (args : list (Z * K)) : list (K * Z) :=
  (fun a : Z * K => (a.2, a.1)) <$> args.

Definition pairs {K : Type} (cweight : Z) (curr : K) (args : list (Z * K))
  : list (K * Z) :=
  (curr, cweight) :: swapped args.

(** The Fisher-Yates steps, in the specification's words: for [n] decreasing
    from the length down to 2, swap the element at the index drawn for [n]
    with the element at position [n - 1].  [draws] lists the indices drawn,
    in the order of the steps. *)
Fixpoint fisher_yates {A : Type} (n : nat) (draws : list nat) (l : list A)
  : list A :=
  match draws with
  | [] => l
  | i :: draws => fisher_yates (n - 1) draws (iter_swap i (n - 1) l)
  end.

(** The indices [random2 n] yields, for [n] decreasing from [n] down to 2,
    on the successive states of the generator. *)
Fixpoint shuffle_draws (n : nat) (g : rng) : list nat :=
  match n with
  | O => []
  | S n' =>
      if (n' =? 0)%nat then []
      else
        let draw := run (random2 (Z.of_nat n)) g in
        Z.to_nat draw.1 :: shuffle_draws n' draw.2
  end.

(** The sum of the weights that come before the first positive one. *)
Fixpoint sum_before_positive (range : list Z) : Z :=
  match range with
  | [] => 0
  | w :: rest => if 0 <? w then 0 else w + sum_before_positive rest
  end.

(** The arguments of the calls to [random2] a computation makes, in order,
    when run against a generator. *)
Fixpoint calls {A : Type} (t : Rand A) (g : rng) : list Z :=
  match t with
  | Ret _ => []
  | Random2 max k =>
      max :: (if max <=? 0 then calls (k 0) g
              else let '(u, g') := get_uint32 g in calls (k (u mod max)) g')
  end.

(** The sum of a range of weights, as a mathematical integer. *)
Definition sum_range (range : list Z) : Z := foldr Z.add 0 range.

(** The weight a range gives to the positions, counted from [count], that
    satisfy [P]. *)
Fixpoint mass_from (P : Z -> bool) (count : Z) (range : list Z) : Z :=
  match range with
  | [] => 0
  | w :: rest => (if P count then w else 0) + mass_from P (count + 1) rest
  end.

(** The weight a collection gives to the choices that satisfy [P]. *)
Definition mass {K : Type} (P : K -> bool) (choices : list (K * Z)) : Z :=
  foldr (fun entry acc => (if P entry.1 then entry.2 else 0) + acc) 0 choices.

(** The weight a collection gives to the positions, counted from [i], that
    satisfy [P]. *)
Fixpoint mass_at {K : Type} (P : nat -> bool) (i : nat)
    (choices : list (K * Z)) : Z :=
  match choices with
  | [] => 0
  | entry :: rest => (if P i then entry.2 else 0) + mass_at P (S i) rest
  end.

(** * Properties *)

(** ** Machine integers and the bit source *)

Lemma Int_wrap_in_range (z : Z) : Int.in_range (Int.wrap z).
Proof.
  unfold Int.in_range, Int.wrap, Int.INT_MIN, Int.INT_MAX, Int.modulus.
  pose proof (Z.mod_pos_bound (z + 2147483648) 4294967296). lia.
Qed.

Lemma Int_wrap_id (z : Z) : Int.in_range z -> Int.wrap z = z.
Proof.
  unfold Int.in_range, Int.wrap, Int.INT_MIN, Int.INT_MAX, Int.modulus.
  intros H. rewrite Z.mod_small; lia.
Qed.

Lemma Int_add_exact (a b : Z) : Int.in_range (a + b) -> Int.add a b = a + b.
Proof. apply Int_wrap_id. Qed.

Lemma Int_add_0_r (a : Z) : Int.in_range a -> Int.add a 0 = a.
Proof. intros H. unfold Int.add. rewrite Z.add_0_r. by apply Int_wrap_id. Qed.

Lemma in_range_nonneg (z : Z) : 0 <= z <= Int.INT_MAX -> Int.in_range z.
Proof. unfold Int.in_range, Int.INT_MIN. lia. Qed.

Lemma zero_in_range : Int.in_range 0.
Proof. by apply in_range_nonneg. Qed.

Lemma get_uint32_range (g : rng) : 0 <= (get_uint32 g).1 < Int.modulus.
Proof. simpl. apply Z.mod_pos_bound. reflexivity. Qed.

(** ** Running a computation *)

Lemma run_bind {A B : Type} (t : Rand A) (f : A -> Rand B) (g : rng) :
  run (t ≫= f) g = run (f (run t g).1) (run t g).2.
Proof.
  revert g. induction t as [a | max k IH]; intros g; simpl; [done |].
  destruct (max <=? 0); [apply IH |].
  destruct (get_uint32 g) as [u g'] eqn:E. apply IH.
Qed.

Lemma bind_ret {A B : Type} (a : A) (f : A -> Rand B) : mret a ≫= f = f a.
Proof. done. Qed.

Lemma run_ret {A : Type} (a : A) (g : rng) : run (mret a) g = (a, g).
Proof. done. Qed.

Lemma run_random2 (max : Z) (g : rng) :
  run (random2 max) g =
    if max <=? 0 then (0, g)
    else (((get_uint32 g).1 mod max), (get_uint32 g).2).
Proof. unfold random2. simpl. by destruct (max <=? 0). Qed.

Lemma random2_nonneg (max : Z) (g : rng) : 0 <= (run (random2 max) g).1.
Proof.
  rewrite run_random2. destruct (Z.leb_spec max 0); simpl; [lia |].
  apply Z.mod_pos_bound. lia.
Qed.

Lemma random2_below (max : Z) (g : rng) :
  0 < max -> (run (random2 max) g).1 < max.
Proof.
  intros Hmax. rewrite run_random2. destruct (Z.leb_spec max 0); [lia |].
  simpl. apply Z.mod_pos_bound. lia.
Qed.

Lemma random2_zero (max : Z) (g : rng) :
  max <= 0 -> run (random2 max) g = (0, g).
Proof.
  intros Hmax. rewrite run_random2. destruct (Z.leb_spec max 0); [done | lia].
Qed.

(** ** Sums and probabilities *)

Lemma sumQc_ext (n : nat) (f h : nat -> Qc) :
  (forall r, (r < n)%nat -> f r = h r) -> sumQc n f = sumQc n h.
Proof.
  induction n as [| n IH]; intros Hfh; simpl; [done |].
  rewrite IH, Hfh; [done | lia | intros r Hr; apply Hfh; lia].
Qed.

Lemma sumQc_const (n : nat) (c : Qc) :
  sumQc n (fun _ => c) = (Qc_of_Z (Z.of_nat n) * c)%Qc.
Proof.
  induction n as [| n IH]; simpl sumQc.
  - change (Z.of_nat 0) with 0. rewrite Z2Qc_inj_0. ring.
  - rewrite IH, Nat2Z.inj_succ, <- Z.add_1_r, Z2Qc_inj_add, Z2Qc_inj_1. ring.
Qed.

Lemma sumQc_app (a b : nat) (f : nat -> Qc) :
  sumQc (a + b) f = (sumQc a f + sumQc b (fun r => f (a + r)%nat))%Qc.
Proof.
  induction b as [| b IH]; simpl.
  - rewrite Nat.add_0_r. ring.
  - rewrite Nat.add_succ_r. simpl. rewrite IH. ring.
Qed.

Lemma sumQc_scale (n : nat) (c : Qc) (f : nat -> Qc) :
  sumQc n (fun r => c * f r)%Qc = (c * sumQc n f)%Qc.
Proof. induction n as [| n IH]; simpl; [ring | rewrite IH; ring]. Qed.

Lemma sumQc_plus (n : nat) (f h : nat -> Qc) :
  sumQc n (fun r => f r + h r)%Qc = (sumQc n f + sumQc n h)%Qc.
Proof. induction n as [| n IH]; simpl; [ring | rewrite IH; ring]. Qed.

(** A sum over [0, n) of a summand that takes one value below [k] and
    another from [k] on. *)
Lemma sumQc_threshold (n k : Z) (X Y : Qc) :
  0 <= k <= n ->
  sumQc (Z.to_nat n) (fun r => if Z.of_nat r <? k then X else Y) =
    (Qc_of_Z k * X + Qc_of_Z (n - k) * Y)%Qc.
Proof.
  intros Hk.
  replace (Z.to_nat n) with (Z.to_nat k + Z.to_nat (n - k))%nat by lia.
  rewrite sumQc_app.
  rewrite (sumQc_ext _ _ (fun _ => X)), sumQc_const.
  2:{ intros r Hr. destruct (Z.ltb_spec (Z.of_nat r) k); [done | lia]. }
  rewrite (sumQc_ext (Z.to_nat (n - k)) _ (fun _ => Y)), sumQc_const.
  2:{ intros r Hr.
      destruct (Z.ltb_spec (Z.of_nat (Z.to_nat k + r)) k); [lia | done]. }
  by rewrite !Z2Nat.id by lia.
Qed.

Lemma Qc_of_Z_pos (n : Z) : 0 < n -> Qc_of_Z n <> 0%Qc.
Proof.
  intros Hn Heq. rewrite <- Z2Qc_inj_0 in Heq. apply Z2Qc_inj in Heq. lia.
Qed.

Lemma prob_random2 {A : Type} (P : A -> bool) (max : Z) (k : Z -> Rand A) :
  0 < max ->
  prob P (random2 max ≫= k) =
    (sumQc (Z.to_nat max) (fun r => prob P (k (Z.of_nat r))) / Qc_of_Z max)%Qc.
Proof.
  intros Hmax. simpl. destruct (Z.leb_spec max 0); [lia | done].
Qed.

Lemma prob_random2_zero {A : Type} (P : A -> bool) (max : Z) (k : Z -> Rand A) :
  max <= 0 -> prob P (random2 max ≫= k) = prob P (k 0).
Proof.
  intros Hmax. simpl. destruct (Z.leb_spec max 0); [done | lia].
Qed.

(** A draw below [max] falls below [k] with probability [k / max]. *)
Lemma prob_random2_threshold {A : Type} (P : A -> bool) (max k : Z)
    (t e : Rand A) :
  0 <= k <= max -> 0 < max ->
  prob P (r ← random2 max; if r <? k then t else e) =
    ((Qc_of_Z k * prob P t + Qc_of_Z (max - k) * prob P e) / Qc_of_Z max)%Qc.
Proof.
  intros Hk Hmax. rewrite prob_random2 by done.
  rewrite (sumQc_ext _ _
             (fun r => if Z.of_nat r <? k then prob P t else prob P e)).
  - by rewrite sumQc_threshold.
  - intros r _. by destruct (Z.of_nat r <? k).
Qed.

(** Each value below [max] is drawn with probability [1 / max]. *)
Lemma sumQc_point (n : nat) (i : nat) :
  (i < n)%nat ->
  sumQc n (fun r => if (r =? i)%nat then 1 else 0)%Qc = 1%Qc.
Proof.
  intros Hi. replace n with (i + (1 + (n - i - 1)))%nat by lia.
  rewrite !sumQc_app.
  rewrite (sumQc_ext i _ (fun _ => 0%Qc)), sumQc_const.
  2:{ intros r Hr. destruct (Nat.eqb_spec r i); [lia | done]. }
  rewrite (sumQc_ext (n - i - 1) _ (fun _ => 0%Qc)), sumQc_const.
  2:{ intros r Hr. destruct (Nat.eqb_spec (i + (1 + r)) i); [lia | done]. }
  simpl sumQc. rewrite Nat.add_0_r, Nat.eqb_refl. ring.
Qed.

Lemma random2_uniform (max i : Z) :
  0 <= i < max ->
  prob (fun r => r =? i) (random2 max) = (1 / Qc_of_Z max)%Qc.
Proof.
  intros Hi. unfold random2. cbn [prob].
  destruct (Z.leb_spec max 0); [lia |]. f_equal.
  rewrite (sumQc_ext _ _
             (fun r => if (r =? Z.to_nat i)%nat then 1 else 0)%Qc).
  - apply sumQc_point. lia.
  - intros r Hr. cbn [prob].
    destruct (Z.eqb_spec (Z.of_nat r) i), (Nat.eqb_spec r (Z.to_nat i));
      (done || lia).
Qed.

(** ** The chance test *)

(** For [0 <= x <= y] and [y > 0] the chance test succeeds with probability
    [x / y]. *)
Lemma prob_x_chance_in_y {A : Type} (P : A -> bool) (x y : Z)
    (k : bool -> Rand A) :
  0 <= x <= y -> 0 < y ->
  prob P (x_chance_in_y x y ≫= k) =
    ((Qc_of_Z x * prob P (k true) + Qc_of_Z (y - x) * prob P (k false))
     / Qc_of_Z y)%Qc.
Proof.
  intros Hx Hy. pose proof (Qc_of_Z_pos y Hy) as Hy0. unfold x_chance_in_y.
  destruct (Z.leb_spec x 0) as [Hx0 | Hx0].
  - assert (x = 0) as -> by lia. rewrite bind_ret.
    rewrite Z.sub_0_r, Z2Qc_inj_0. by field.
  - destruct (Z.leb_spec y x) as [Hyx | Hyx].
    + assert (x = y) as -> by lia. rewrite bind_ret.
      rewrite Z.sub_diag, Z2Qc_inj_0. by field.
    + rewrite <- prob_random2_threshold by lia.
      simpl. destruct (Z.leb_spec y 0); [lia |]. f_equal.
      apply sumQc_ext. intros r _. by destruct (Z.of_nat r <? x).
Qed.

Lemma x_chance_in_y_zero (y : Z) : x_chance_in_y 0 y = mret false.
Proof. done. Qed.

Lemma x_chance_in_y_double_false `{FloatModel} (x y : double) (g : rng) :
  double_le x (double_of_int 0) = true ->
  x_chance_in_y_double x y g = (false, g).
Proof. intros Hx. unfold x_chance_in_y_double. by rewrite Hx. Qed.

Lemma x_chance_in_y_double_true `{FloatModel} (x y : double) (g : rng) :
  double_le x (double_of_int 0) = false -> double_le y x = true ->
  x_chance_in_y_double x y g = (true, g).
Proof. intros Hx Hxy. unfold x_chance_in_y_double. by rewrite Hx, Hxy. Qed.

(** C8: [x_chance_in_y(x, y)] is false whenever [x <= 0] and true whenever
    [x >= y > 0], for the integer overload and for the real one (over the
    rationals), whatever the state of the generator, which is left as it
    was. *)
Theorem x_chance_in_y_extremes (g : rng) :
  (forall x y : Z, x <= 0 -> run (x_chance_in_y x y) g = (false, g)) /\
  (forall x y : Z, 0 < y <= x -> run (x_chance_in_y x y) g = (true, g)) /\
  (forall x y : Qc, (x ≤ 0)%Qc -> x_chance_in_y_double x y g = (false, g)) /\
  (forall x y : Qc,
     (0 < y)%Qc -> (y ≤ x)%Qc -> x_chance_in_y_double x y g = (true, g)).
Proof.
  split; [| split; [| split]].
  - intros x y Hx. unfold x_chance_in_y.
    destruct (Z.leb_spec x 0); [done | lia].
  - intros x y [Hy Hxy]. unfold x_chance_in_y.
    destruct (Z.leb_spec x 0); [lia |].
    destruct (Z.leb_spec y x); [done | lia].
  - intros x y Hx. apply x_chance_in_y_double_false. simpl.
    rewrite Z2Qc_inj_0. by apply bool_decide_eq_true.
  - intros x y Hy Hxy. apply x_chance_in_y_double_true; simpl.
    + rewrite Z2Qc_inj_0. apply bool_decide_eq_false, Qclt_not_le.
      by apply Qclt_le_trans with y.
    + by apply bool_decide_eq_true.
Qed.

Lemma x_chance_in_y_extremes_witness :
  run (x_chance_in_y 0 5) sample_rng = (false, sample_rng) /\
  run (x_chance_in_y 7 5) sample_rng = (true, sample_rng).
Proof.
  destruct (x_chance_in_y_extremes sample_rng) as (Hfalse & Htrue & _).
  split; [apply Hfalse | apply Htrue]; lia.
Defined.

(** C7: the template [x_chance_in_y(T x, U y)] calls the [double] overload on
    [double(x)], [double(y)] when [T] or [U] is a floating-point type and the
    [int] overload on [int(x)], [int(y)] otherwise; which of the two is fixed
    by the types alone, before any value is seen. *)
Theorem x_chance_in_y_generic_dispatch `{FloatModel} (T U : numeric) :
  exists use_double : bool,
    use_double = is_floating_point T || is_floating_point U /\
    forall (x : value T) (y : value U) (g : rng),
      x_chance_in_y_generic T U x y g =
        if use_double
        then x_chance_in_y_double (to_double T x) (to_double U y) g
        else run (x_chance_in_y (to_int T x) (to_int U y)) g.
Proof.
  exists (is_floating_point T || is_floating_point U). split; [done |].
  intros x y g. unfold x_chance_in_y_generic.
  by destruct (is_floating_point T || is_floating_point U).
Qed.

(** ** Weighted choice over a collection *)

Section Choices.
Context {K : Type}.
Implicit Types (choices pre rest : list (K * Z)) (r sum : Z) (i : nat).

Lemma sum_weights_app pre rest :
  sum_weights (pre ++ rest) = sum_weights pre + sum_weights rest.
Proof. induction pre as [| e pre IH]; simpl; [done | rewrite IH; lia]. Qed.

Lemma sum_weights_nonneg choices :
  Forall (fun entry => 0 <= entry.2) choices -> 0 <= sum_weights choices.
Proof. induction 1; simpl; lia. Qed.

Lemma sum_weights_zero choices :
  Forall (fun entry => entry.2 = 0) choices -> sum_weights choices = 0.
Proof. induction 1; simpl; lia. Qed.

Lemma total_weight_from (acc : Z) choices :
  Forall (fun entry => 0 <= entry.2) choices ->
  0 <= acc -> acc + sum_weights choices <= Int.INT_MAX ->
  foldl (fun total entry => Int.add total entry.2) acc choices =
    acc + sum_weights choices.
Proof.
  intros Hpos. revert acc.
  induction Hpos as [| e rest He Hrest IH]; intros acc Hacc Hfit; simpl in *.
  - lia.
  - pose proof (sum_weights_nonneg _ Hrest).
    rewrite Int_add_exact by (unfold Int.in_range, Int.INT_MIN; lia).
    rewrite IH; lia.
Qed.

Lemma total_weight_exact choices :
  weights_ok choices -> total_weight choices = sum_weights choices.
Proof.
  intros [Hpos Hfit]. unfold total_weight.
  rewrite total_weight_from; [lia | done | lia | lia].
Qed.

Lemma running_sum_middle pre (e : K * Z) rest :
  running_sum (pre ++ e :: rest) (length pre) = sum_weights pre + e.2.
Proof.
  unfold running_sum.
  replace (take (S (length pre)) (pre ++ e :: rest)) with (pre ++ [e]).
  - rewrite sum_weights_app. simpl. lia.
  - rewrite (cons_middle e pre rest), (assoc app).
    rewrite take_app_length'; [done |]. rewrite length_app. simpl. lia.
Qed.

(** Without overflow, the loop of the header finds the first entry at which
    the running sum exceeds the draw. *)
Lemma scan_choices_from pre rest r :
  weights_ok (pre ++ rest) ->
  scan_choices r (sum_weights pre) (length pre) rest =
    snd <$> list_find (fun i => r < running_sum (pre ++ rest) i)
                      (seq (length pre) (length rest)).
Proof.
  revert pre. induction rest as [| e rest IH]; intros pre [Hpos Hfit]; [done |].
  assert (0 <= sum_weights pre /\ 0 <= e.2 /\ 0 <= sum_weights rest)
    as (Hpre & He & Hrest).
  { apply Forall_app in Hpos as [Hp Hr]. inversion Hr; subst.
    auto using sum_weights_nonneg. }
  rewrite sum_weights_app in Hfit. simpl in Hfit.
  simpl scan_choices.
  rewrite Int_add_exact by (unfold Int.in_range, Int.INT_MIN; lia).
  simpl length. simpl seq. simpl list_find.
  rewrite running_sum_middle.
  destruct (Z.ltb_spec r (sum_weights pre + e.2)) as [Hlt | Hge].
  - rewrite decide_True by done. done.
  - rewrite decide_False by lia.
    specialize (IH (pre ++ [e])).
    rewrite sum_weights_app, length_app, Nat.add_1_r in IH. simpl in IH.
    rewrite Z.add_0_r in IH.
    replace ((pre ++ [e]) ++ rest) with (pre ++ e :: rest) in IH
      by (by rewrite <- (assoc app)).
    rewrite IH.
    + by destruct (list_find _ _) as [[j x] |].
    + split; [done |]. rewrite sum_weights_app. simpl. lia.
Qed.

Lemma scan_choices_first_exceeding choices r :
  weights_ok choices ->
  scan_choices r 0 0 choices = first_exceeding r choices.
Proof. intros Hok. by apply (scan_choices_from [] choices). Qed.

(** While the running sum has not exceeded a non-negative draw, an entry of
    weight zero cannot make it do so; this needs no assumption on the other
    weights. *)
Lemma scan_choices_nonzero choices r sum i (p : nat) :
  Int.in_range sum -> sum <= r ->
  scan_choices r sum i choices = Some p ->
  exists entry, choices !! (p - i)%nat = Some entry /\ entry.2 <> 0 /\
                (i <= p)%nat.
Proof.
  revert sum i. induction choices as [| e rest IH]; intros sum i Hsum Hr;
    simpl; [done |].
  destruct (Z.ltb_spec r (Int.add sum e.2)) as [Hlt | Hge].
  - intros [= <-]. exists e. rewrite Nat.sub_diag. repeat split; [| lia].
    intros He. rewrite He, Int_add_0_r in Hlt by done. lia.
  - intros Hscan. apply IH in Hscan as (entry & Hlook & Hne & Hle);
      [| apply Int_wrap_in_range | done].
    exists entry. repeat split; [| done | lia].
    replace (p - i)%nat with (S (p - S i)) by lia. done.
Qed.

(** A draw below the total is exceeded somewhere. *)
Lemma first_exceeding_is_Some choices r :
  0 <= r < sum_weights choices ->
  exists p, first_exceeding r choices = Some p /\ (p < length choices)%nat.
Proof.
  intros Hr. unfold first_exceeding.
  destruct (list_find _ _) as [[j p] |] eqn:Hfind.
  - apply list_find_Some in Hfind as (Hj & _ & _).
    apply lookup_seq in Hj as [-> Hj]. exists j. split; [done | lia].
  - exfalso. apply list_find_None in Hfind.
    destruct choices as [| e rest]; [simpl in Hr; lia |].
    rewrite Forall_forall in Hfind.
    apply (Hfind (length rest)).
    + apply elem_of_seq. simpl. lia.
    + unfold running_sum.
      change (S (length rest)) with (length (e :: rest)).
      rewrite firstn_all. lia.
Qed.
End Choices.

Lemma run_random_choose_weighted {K : Type} (choices : list (K * Z)) (g : rng) :
  run (random_choose_weighted choices) g =
    (scan_choices (run (random2 (total_weight choices)) g).1 0 0 choices,
     (run (random2 (total_weight choices)) g).2).
Proof. unfold random_choose_weighted. by rewrite run_bind. Qed.

Lemma random_choose_weighted_all_zero {K : Type} (choices : list (K * Z))
    (g : rng) :
  Forall (fun entry => entry.2 = 0) choices ->
  (run (random_choose_weighted choices) g).1 = None.
Proof.
  intros Hzero. rewrite run_random_choose_weighted. simpl.
  destruct (scan_choices _ 0 0 choices) as [p |] eqn:Hscan; [| done].
  apply scan_choices_nonzero in Hscan as (entry & Hlook & Hne & _);
    [| apply zero_in_range | apply random2_nonneg].
  rewrite Forall_forall in Hzero. destruct Hne.
  apply Hzero. by apply list_elem_of_lookup_2 in Hlook.
Qed.

Lemma prob_random_choose_weighted {K : Type} (P : option nat -> bool)
    (choices : list (K * Z)) :
  weights_ok choices -> 0 < sum_weights choices ->
  prob P (random_choose_weighted choices) =
    (sumQc (Z.to_nat (sum_weights choices))
       (fun r => if P (first_exceeding (Z.of_nat r) choices)
                 then 1 else 0)%Qc
     / Qc_of_Z (sum_weights choices))%Qc.
Proof.
  intros Hok Htotal. unfold random_choose_weighted.
  rewrite total_weight_exact, prob_random2 by done. f_equal.
  apply sumQc_ext. intros r _. simpl.
  by rewrite scan_choices_first_exceeding.
Qed.

(** C6: for a collection of non-negative weights the function sums the
    weights, draws [r] uniformly in [0, total), and returns a pointer to the
    first entry at which the running sum exceeds [r]; it returns [nullptr]
    when all the weights are zero. *)
Theorem random_choose_weighted_batch {K : Type} (choices : list (K * Z))
    (g : rng) :
  weights_ok choices ->
  let total := sum_weights choices in
  let r := (run (random2 total) g).1 in
  total_weight choices = total /\
  (0 < total -> 0 <= r < total) /\
  run (random_choose_weighted choices) g =
    (first_exceeding r choices, (run (random2 total) g).2) /\
  (0 < total ->
   forall P : option nat -> bool,
     prob P (random_choose_weighted choices) =
       (sumQc (Z.to_nat total)
          (fun v => if P (first_exceeding (Z.of_nat v) choices)
                    then 1 else 0)%Qc
        / Qc_of_Z total)%Qc) /\
  (Forall (fun entry => entry.2 = 0) choices ->
   (run (random_choose_weighted choices) g).1 = None).
Proof.
  intros Hok total r. subst total r.
  split; [by apply total_weight_exact |].
  split; [intros Hpos; split; [apply random2_nonneg | by apply random2_below] |].
  split.
  { rewrite run_random_choose_weighted, total_weight_exact by done.
    by rewrite scan_choices_first_exceeding. }
  split; [intros Hpos P; by apply prob_random_choose_weighted |].
  apply random_choose_weighted_all_zero.
Qed.

Lemma random_choose_weighted_batch_witness :
  run (random_choose_weighted [(10%nat, 2); (11%nat, 0); (12%nat, 3)])
      sample_rng =
    (first_exceeding (run (random2 5) sample_rng).1
       [(10%nat, 2); (11%nat, 0); (12%nat, 3)],
     (run (random2 5) sample_rng).2).
Proof.
  apply (random_choose_weighted_batch
           [(10%nat, 2); (11%nat, 0); (12%nat, 3)] sample_rng).
  split; [repeat constructor; simpl; lia | vm_compute; discriminate].
Defined.

(** C10: the function never returns a pointer to an entry of weight zero,
    and when the total weight is positive it returns a pointer to an entry:
    the final [return nullptr] is not reached. *)
Theorem random_choose_weighted_never_zero {K : Type} (choices : list (K * Z))
    (g : rng) :
  (forall p : nat,
     (run (random_choose_weighted choices) g).1 = Some p ->
     exists entry, choices !! p = Some entry /\ entry.2 <> 0) /\
  (weights_ok choices -> 0 < sum_weights choices ->
   exists p entry,
     (run (random_choose_weighted choices) g).1 = Some p /\
     choices !! p = Some entry).
Proof.
  split.
  - intros p. rewrite run_random_choose_weighted. simpl. intros Hscan.
    apply scan_choices_nonzero in Hscan as (entry & Hlook & Hne & _);
      [| apply zero_in_range | apply random2_nonneg].
    rewrite Nat.sub_0_r in Hlook. eauto.
  - intros Hok Hpos. rewrite run_random_choose_weighted. simpl.
    rewrite scan_choices_first_exceeding, total_weight_exact by done.
    destruct (first_exceeding_is_Some choices
                (run (random2 (sum_weights choices)) g).1) as (p & Hp & Hlen).
    { split; [apply random2_nonneg | by apply random2_below]. }
    apply lookup_lt_is_Some_2 in Hlen as [entry Hentry]. eauto.
Qed.

Lemma random_choose_weighted_never_zero_witness :
  exists p entry,
    (run (random_choose_weighted [(10%nat, 0); (11%nat, 4); (12%nat, 0)])
         sample_rng).1 = Some p /\
    [(10%nat, 0); (11%nat, 4); (12%nat, 0)] !! p = Some entry.
Proof.
  apply (random_choose_weighted_never_zero
           [(10%nat, 0); (11%nat, 4); (12%nat, 0)] sample_rng).
  - split; [repeat constructor; simpl; lia | vm_compute; discriminate].
  - vm_compute. reflexivity.
Defined.

(** ** Weighted choice over a fixed vector *)

Lemma run_random_choose_weighted_fixed (choices : list Z) (g : rng) :
  run (random_choose_weighted_fixed choices) g =
    (fixed_scan (run (random2 (fixed_total choices)) g).1 0 0 choices,
     (run (random2 (fixed_total choices)) g).2).
Proof. unfold random_choose_weighted_fixed. by rewrite run_bind. Qed.

Lemma fixed_scan_skipped (r sum i : Z) (choices : list Z) :
  Forall (fun weight => weight <= 0) choices ->
  fixed_scan r sum i choices = -1.
Proof.
  intros Hskip. revert i. induction Hskip as [| c rest Hc _ IH]; intros i;
    simpl; [done |].
  destruct (Z.leb_spec c 0); [apply IH | lia].
Qed.

(** An index the scan returns is that of an entry it did not skip. *)
Lemma fixed_scan_retained (r sum i : Z) (choices : list Z) :
  0 <= i -> fixed_scan r sum i choices <> -1 ->
  i <= fixed_scan r sum i choices < i + Z.of_nat (length choices) /\
  exists weight,
    choices !! Z.to_nat (fixed_scan r sum i choices - i) = Some weight /\
    0 < weight.
Proof.
  revert sum i. induction choices as [| c rest IH]; intros sum i Hi; simpl;
    [done |].
  assert (forall sum', fixed_scan r sum' (i + 1) rest <> -1 ->
            i <= fixed_scan r sum' (i + 1) rest
              < i + Z.pos (Pos.of_succ_nat (length rest)) /\
            exists weight,
              (c :: rest) !! Z.to_nat (fixed_scan r sum' (i + 1) rest - i)
                = Some weight /\ 0 < weight) as Hrest.
  { intros sum' Hne. destruct (IH sum' (i + 1)) as ((Hlo & Hhi) & w & Hw & Hpos);
      [lia | done |].
    split; [lia |]. exists w. split; [| done].
    replace (Z.to_nat (fixed_scan r sum' (i + 1) rest - i))
      with (S (Z.to_nat (fixed_scan r sum' (i + 1) rest - (i + 1)))) by lia.
    done. }
  destruct (Z.leb_spec c 0) as [Hc | Hc]; [apply Hrest |].
  destruct (Z.ltb_spec r (Int.add sum c)); [| apply Hrest].
  intros _. split; [lia |]. exists c. by rewrite Z.sub_diag.
Qed.

Lemma sum_positive_nonneg (choices : list Z) : 0 <= sum_positive choices.
Proof. induction choices; simpl; lia. Qed.

Lemma fixed_total_from (acc : Z) (choices : list Z) :
  0 <= acc -> acc + sum_positive choices <= Int.INT_MAX ->
  foldl (fun total weight =>
           if 0 <? weight then Int.add total weight else total) acc choices =
    acc + sum_positive choices.
Proof.
  revert acc. induction choices as [| c rest IH]; intros acc Hacc Hfit;
    simpl in *; [lia |].
  pose proof (sum_positive_nonneg rest).
  destruct (Z.ltb_spec 0 c).
  - rewrite Int_add_exact by (unfold Int.in_range, Int.INT_MIN; lia).
    rewrite IH; lia.
  - rewrite IH; lia.
Qed.

Lemma fixed_scan_found (r sum i : Z) (choices : list Z) :
  0 <= i -> 0 <= sum -> sum + sum_positive choices <= Int.INT_MAX ->
  r < sum + sum_positive choices -> sum <= r ->
  fixed_scan r sum i choices <> -1.
Proof.
  revert sum i. induction choices as [| c rest IH]; intros sum i Hi Hsum Hfit Hr Hlo;
    simpl in *; [lia |].
  pose proof (sum_positive_nonneg rest).
  destruct (Z.leb_spec c 0); [apply IH; lia |].
  rewrite Int_add_exact by (unfold Int.in_range, Int.INT_MIN; lia).
  destruct (Z.ltb_spec r (sum + c)); [lia | apply IH; lia].
Qed.

(** The key of the entry the scan of a collection stops at. *)
Lemma scan_choices_key {K : Type} (r sum : Z) (i : nat) (k : K) (w : Z)
    (rest : list (K * Z)) :
  scan_choices r sum i ((k, w) :: rest) =
    if r <? Int.add sum w then Some i
    else scan_choices r (Int.add sum w) (S i) rest.
Proof. done. Qed.

(** The scan of a fixed vector is the scan of the collection of the entries
    it retains. *)
Lemma fixed_scan_as_choices (r sum i : Z) (j : nat) (choices : list Z) :
  fixed_scan r sum i choices =
    match scan_choices r sum j (retained_from i choices) with
    | Some p => default (-1) (deref (retained_from i choices) (p - j))
    | None => -1
    end.
Proof.
  revert sum i j. induction choices as [| c rest IH]; intros sum i j; simpl;
    [done |].
  destruct (Z.leb_spec c 0); [apply IH |].
  rewrite scan_choices_key.
  destruct (Z.ltb_spec r (Int.add sum c)).
  - by rewrite Nat.sub_diag.
  - rewrite (IH _ _ (S j)).
    destruct (scan_choices _ _ (S j) _) as [p |] eqn:Hscan; [| done].
    assert (S j <= p)%nat as Hp.
    { clear -Hscan. revert Hscan. generalize (S j), (Int.add sum c).
      induction (retained_from (i + 1) rest) as [| e l IHl]; intros n s;
        simpl; [done |].
      destruct (r <? Int.add s e.2); [intros [= <-]; lia |].
      intros Hs. apply IHl in Hs. lia. }
    unfold deref. replace (p - j)%nat with (S (p - S j)) by lia. done.
Qed.

Lemma fixed_total_as_choices (acc i : Z) (choices : list Z) :
  foldl (fun total weight =>
           if 0 <? weight then Int.add total weight else total) acc choices =
    foldl (fun total (entry : Z * Z) => Int.add total entry.2) acc
          (retained_from i choices).
Proof.
  revert acc i. induction choices as [| c rest IH]; intros acc i; simpl;
    [done |].
  destruct (Z.leb_spec c 0), (Z.ltb_spec 0 c); try lia; simpl; apply IH.
Qed.

Lemma sum_positive_pos (choices : list Z) :
  Exists (fun weight => 0 < weight) choices -> 0 < sum_positive choices.
Proof.
  induction 1 as [c rest Hc | c rest _ IH]; simpl;
    pose proof (sum_positive_nonneg rest); lia.
Qed.

Lemma fst_random_choose_weighted_fixed (choices : list Z) (g : rng) :
  (run (random_choose_weighted_fixed choices) g).1 =
    fixed_scan (run (random2 (fixed_total choices)) g).1 0 0 choices.
Proof. by rewrite run_random_choose_weighted_fixed. Qed.

Lemma fst_random_choose_weighted {K : Type} (choices : list (K * Z))
    (g : rng) :
  (run (random_choose_weighted choices) g).1 =
    scan_choices (run (random2 (total_weight choices)) g).1 0 0 choices.
Proof. by rewrite run_random_choose_weighted. Qed.

(** C5: the fixed-vector variant skips the entries of weight [<= 0], as if
    they were absent: it is the choice over the collection of the retained
    entries.  It returns -1 when every entry is skipped; an index it returns
    is that of a retained entry, and it returns one whenever an entry is
    retained.  On [0,0,5,0] it returns 2 and on [0,0,0,0] it returns -1. *)
Theorem random_choose_weighted_fixed_skips (choices : list Z) (g : rng) :
  let result := (run (random_choose_weighted_fixed choices) g).1 in
  result =
    match (run (random_choose_weighted (retained choices)) g).1 with
    | Some p => default (-1) (deref (retained choices) p)
    | None => -1
    end /\
  (Forall (fun weight => weight <= 0) choices -> result = -1) /\
  (result <> -1 ->
   0 <= result < Z.of_nat (length choices) /\
   exists weight, choices !! Z.to_nat result = Some weight /\ 0 < weight) /\
  (sum_positive choices <= Int.INT_MAX ->
   Exists (fun weight => 0 < weight) choices -> result <> -1) /\
  (run (random_choose_weighted_fixed [0; 0; 5; 0]) g).1 = 2 /\
  (run (random_choose_weighted_fixed [0; 0; 0; 0]) g).1 = -1.
Proof.
  intros result. subst result.
  rewrite fst_random_choose_weighted_fixed.
  repeat split.
  - rewrite fst_random_choose_weighted.
    unfold fixed_total, total_weight, retained.
    rewrite (fixed_total_as_choices 0 0 choices).
    rewrite (fixed_scan_as_choices _ 0 0 0 choices).
    destruct (scan_choices _ _ _ _) as [p |]; [| done].
    by rewrite Nat.sub_0_r.
  - apply fixed_scan_skipped.
  - pose proof (fixed_scan_retained _ 0 0 choices (Z.le_refl 0) H). lia.
  - pose proof (fixed_scan_retained _ 0 0 choices (Z.le_refl 0) H). lia.
  - destruct (fixed_scan_retained _ 0 0 choices (Z.le_refl 0) H)
      as (_ & weight & Hw & Hpos).
    rewrite Z.sub_0_r in Hw. eauto.
  - intros Hfit Hex. apply sum_positive_pos in Hex.
    assert (fixed_total choices = sum_positive choices) as Htotal.
    { unfold fixed_total. rewrite fixed_total_from; lia. }
    rewrite Htotal.
    apply fixed_scan_found; try lia.
    + by apply random2_below.
    + apply random2_nonneg.
  - rewrite fst_random_choose_weighted_fixed.
    change (fixed_total [0; 0; 5; 0]) with 5.
    pose proof (random2_below 5 g eq_refl) as Hr.
    set (r := (run (random2 5) g).1) in *. clearbody r. simpl.
    change (Int.add 0 5) with 5.
    destruct (Z.ltb_spec r 5); [done | lia].
Qed.

Lemma random_choose_weighted_fixed_skips_witness :
  (run (random_choose_weighted_fixed [3; -4; 0; 6]) sample_rng).1 <> -1.
Proof.
  apply (random_choose_weighted_fixed_skips [3; -4; 0; 6] sample_rng).
  - vm_compute. discriminate.
  - constructor. lia.
Defined.

(** ** Weighted choice of a position, with its assertion *)

Lemma run_choose_random_weighted_loop (totalweight result count w : Z)
    (beg : list Z) (g : rng) :
  run (choose_random_weighted_loop totalweight result count (w :: beg)) g =
    let draw := run (random2 (Int.add totalweight w)) g in
    run (choose_random_weighted_loop (Int.add totalweight w)
           (if draw.1 <? w then count else result) (count + 1) beg) draw.2.
Proof. exact (run_bind (random2 (Int.add totalweight w)) _ g). Qed.

Lemma choose_random_weighted_loop_zero (result count : Z) (beg : list Z)
    (g : rng) :
  Forall (fun w => w = 0) beg ->
  run (choose_random_weighted_loop 0 result count beg) g = (result, g).
Proof.
  intros Hzero. revert result count.
  induction Hzero as [| w beg -> _ IH]; intros result count; [done |].
  rewrite run_choose_random_weighted_loop.
  change (Int.add 0 0) with 0. rewrite random2_zero by lia. apply IH.
Qed.

(** The loop either keeps the result it had or sets it to the position of an
    element of positive weight. *)
Lemma choose_random_weighted_loop_result (totalweight result count : Z)
    (beg : list Z) (g : rng) :
  let final := (run (choose_random_weighted_loop totalweight result count beg)
                    g).1 in
  final = result \/
  (count <= final < count + Z.of_nat (length beg) /\
   exists w, beg !! Z.to_nat (final - count) = Some w /\ 0 < w).
Proof.
  revert totalweight result count g.
  induction beg as [| w beg IH]; intros totalweight result count g;
    [by left |].
  rewrite run_choose_random_weighted_loop. cbv zeta.
  set (draw := run (random2 (Int.add totalweight w)) g).
  pose proof (random2_nonneg (Int.add totalweight w) g) as Hdraw.
  fold draw in Hdraw.
  specialize (IH (Int.add totalweight w)
                 (if draw.1 <? w then count else result) (count + 1) draw.2).
  cbv zeta in IH.
  set (final := (run _ draw.2).1) in *. clearbody final.
  destruct IH as [-> | ((Hlo & Hhi) & w' & Hw' & Hpos)].
  - destruct (Z.ltb_spec draw.1 w); [| by left].
    right. split; [simpl length; lia |].
    exists w. rewrite Z.sub_diag. split; [done | lia].
  - right. split; [simpl length; lia |].
    exists w'. split; [| done].
    replace (Z.to_nat (final - count))
      with (S (Z.to_nat (final - (count + 1)))) by lia.
    done.
Qed.

Lemma choose_random_weighted_loop_found (count : Z) (beg : list Z) (g : rng) :
  Forall (fun w => 0 <= w <= Int.INT_MAX) beg ->
  Exists (fun w => 0 < w) beg ->
  0 <= count ->
  0 <= (run (choose_random_weighted_loop 0 (-1) count beg) g).1.
Proof.
  intros Hrange. revert count g.
  induction Hrange as [| w beg Hw _ IH]; intros count g Hex Hcount;
    [by apply Exists_nil in Hex |].
  rewrite run_choose_random_weighted_loop. cbv zeta.
  assert (Int.add 0 w = w) as ->.
  { apply Int_add_exact. unfold Int.in_range, Int.INT_MIN. simpl. lia. }
  destruct (Z.eq_dec w 0) as [-> | Hne].
  - rewrite random2_zero by lia. simpl.
    apply IH; [| lia]. apply Exists_cons in Hex as [? | ?]; [lia | done].
  - pose proof (random2_below w g) as Hlt.
    destruct (Z.ltb_spec (run (random2 w) g).1 w) as [_ | ?]; [| lia].
    pose proof (choose_random_weighted_loop_result w count (count + 1) beg
                  (run (random2 w) g).2) as Hres.
    cbv zeta in Hres. lia.
Qed.

Lemma sum_before_positive_nonpos (range : list Z) :
  sum_before_positive range <= 0.
Proof.
  induction range as [| w rest IH]; simpl; [done |].
  destruct (Z.ltb_spec 0 w); lia.
Qed.

(** Negative weights before the first positive one do not prevent it from
    being chosen, as long as their sum is an [int]. *)
Lemma choose_random_weighted_loop_found_any (totalweight count : Z)
    (beg : list Z) (g : rng) :
  Forall Int.in_range beg ->
  Exists (fun w => 0 < w) beg ->
  totalweight <= 0 ->
  Int.INT_MIN <= totalweight + sum_before_positive beg ->
  0 <= count ->
  0 <= (run (choose_random_weighted_loop totalweight (-1) count beg) g).1.
Proof.
  intros Hrange. revert totalweight count g.
  induction Hrange as [| w beg Hw _ IH]; intros totalweight count g Hex Htw Hfit
    Hcount; [by apply Exists_nil in Hex |].
  rewrite run_choose_random_weighted_loop. cbv zeta.
  pose proof (sum_before_positive_nonpos beg) as Hnonpos.
  simpl in Hfit. unfold Int.in_range, Int.INT_MIN, Int.INT_MAX in Hw.
  unfold Int.INT_MIN in Hfit.
  assert (Int.add totalweight w = totalweight + w) as ->.
  { apply Int_add_exact. unfold Int.in_range, Int.INT_MIN, Int.INT_MAX.
    destruct (Z.ltb_spec 0 w); lia. }
  destruct (Z.ltb_spec 0 w) as [Hpos | Hneg].
  - pose proof (random2_nonneg (totalweight + w) g) as Hge.
    assert ((run (random2 (totalweight + w)) g).1 < w) as Hlt.
    { destruct (Z.le_gt_cases (totalweight + w) 0) as [Hle | Hgt].
      - rewrite random2_zero by done. simpl. lia.
      - pose proof (random2_below (totalweight + w) g). lia. }
    destruct (Z.ltb_spec (run (random2 (totalweight + w)) g).1 w); [| lia].
    pose proof (choose_random_weighted_loop_result (totalweight + w) count
                  (count + 1) beg (run (random2 (totalweight + w)) g).2)
      as Hres.
    cbv zeta in Hres. lia.
  - rewrite random2_zero by lia. simpl fst. simpl snd.
    destruct (Z.ltb_spec 0 w) as [? | _]; [lia |].
    apply IH; [| lia | unfold Int.INT_MIN; lia | lia].
    apply Exists_cons in Hex as [? | ?]; [lia | done].
Qed.

Lemma fst_choose_random_weighted (range : list Z) (g : rng) :
  (run (choose_random_weighted range) g).1 =
    let result := (run (choose_random_weighted_loop 0 (-1) 0 range) g).1 in
    ASSERT (0 <=? result) result.
Proof. unfold choose_random_weighted. by rewrite run_bind. Qed.

(** C9: [choose_random_weighted] fails its assertion when the range is empty
    or every weight is zero; when a weight is positive the assertion holds
    and the function returns the position of an element of the range, one of
    positive weight.  This holds for non-negative weights, and more generally
    when the weights before the first positive one sum to an [int]. *)
Theorem choose_random_weighted_asserts (range : list Z) (g : rng) :
  (range = [] -> (run (choose_random_weighted range) g).1 = AssertFailed) /\
  (Forall (fun w => w = 0) range ->
   (run (choose_random_weighted range) g).1 = AssertFailed) /\
  (Forall (fun w => 0 <= w <= Int.INT_MAX) range ->
   Exists (fun w => 0 < w) range ->
   exists result w,
     (run (choose_random_weighted range) g).1 = Returned result /\
     0 <= result < Z.of_nat (length range) /\
     range !! Z.to_nat result = Some w /\ 0 < w) /\
  (Forall Int.in_range range ->
   Int.INT_MIN <= sum_before_positive range ->
   Exists (fun w => 0 < w) range ->
   exists result w,
     (run (choose_random_weighted range) g).1 = Returned result /\
     0 <= result < Z.of_nat (length range) /\
     range !! Z.to_nat result = Some w /\ 0 < w).
Proof.
  rewrite fst_choose_random_weighted. cbv zeta.
  pose proof (choose_random_weighted_loop_result 0 (-1) 0 range g) as Hres.
  cbv zeta in Hres.
  set (result := (run (choose_random_weighted_loop 0 (-1) 0 range) g).1) in *.
  assert (0 <= result ->
          exists result' w,
            ASSERT (0 <=? result) result = Returned result' /\
            0 <= result' < Z.of_nat (length range) /\
            range !! Z.to_nat result' = Some w /\ 0 < w) as Hreturned.
  { intros Hfound.
    destruct Hres as [? | (Hbound & w & Hw & Hpos)]; [lia |].
    rewrite Z.sub_0_r in Hw. exists result, w.
    unfold ASSERT. destruct (Z.leb_spec 0 result); [| lia].
    repeat split; [lia | lia | done | done]. }
  split; [by intros -> |]. split; [| split].
  - intros Hzero. subst result.
    by rewrite choose_random_weighted_loop_zero.
  - intros Hrange Hex. apply Hreturned.
    by apply choose_random_weighted_loop_found.
  - intros Hrange Hfit Hex. apply Hreturned.
    apply choose_random_weighted_loop_found_any; (done || lia).
Qed.

Lemma choose_random_weighted_asserts_witness :
  (run (choose_random_weighted []) sample_rng).1 = AssertFailed /\
  (run (choose_random_weighted [0; 0; 0]) sample_rng).1 = AssertFailed /\
  exists result w,
    (run (choose_random_weighted [0; 4; 1]) sample_rng).1 = Returned result /\
    0 <= result < 3 /\
    [0; 4; 1] !! Z.to_nat result = Some w /\ 0 < w.
Proof.
  split; [| split].
  - by apply (choose_random_weighted_asserts [] sample_rng).
  - apply (choose_random_weighted_asserts [0; 0; 0] sample_rng).
    by repeat constructor.
  - destruct (choose_random_weighted_asserts [0; 4; 1] sample_rng)
      as (_ & _ & Hfound & _).
    apply Hfound.
    + repeat constructor; unfold Int.INT_MAX; lia.
    + apply Exists_cons_tl, Exists_cons_hd. lia.
Defined.

(** ** Inputs of total weight zero *)

Lemma weights_all_zero {K : Type} (choices : list (K * Z)) :
  Forall (fun entry => 0 <= entry.2) choices -> sum_weights choices = 0 ->
  Forall (fun entry => entry.2 = 0) choices.
Proof.
  induction 1 as [| e rest He Hrest IH]; simpl; intros Hsum; [done |].
  pose proof (sum_weights_nonneg _ Hrest).
  constructor; [lia | apply IH; lia].
Qed.

Lemma sum_positive_all_skipped (choices : list Z) :
  sum_positive choices = 0 -> Forall (fun weight => weight <= 0) choices.
Proof.
  induction choices as [| c rest IH]; simpl; intros Hsum; [done |].
  pose proof (sum_positive_nonneg rest).
  constructor; [lia | apply IH; lia].
Qed.

Lemma run_random_choose_weighted_args {K : Type} (cweight nweight : Z)
    (curr next : K) (args : list (Z * K)) (g : rng) :
  run (random_choose_weighted_args cweight curr ((nweight, next) :: args)) g =
    let draw := run (random2 (Int.add cweight nweight)) g in
    run (random_choose_weighted_args (Int.add cweight nweight)
           (if draw.1 <? nweight then next else curr) args) draw.2.
Proof. exact (run_bind (random2 (Int.add cweight nweight)) _ g). Qed.

Lemma random_choose_weighted_args_zero {K : Type} (curr : K)
    (args : list (Z * K)) (g : rng) :
  Forall (fun a => a.1 = 0) args ->
  run (random_choose_weighted_args 0 curr args) g = (curr, g).
Proof.
  induction 1 as [| [nweight next] args Hz _ IH]; [done |].
  simpl in Hz. subst nweight. rewrite run_random_choose_weighted_args.
  change (Int.add 0 0) with 0. by rewrite random2_zero by lia.
Qed.

Lemma random_choose_weighted_loop_zero {K : Type} (weight : K -> Z)
    (result : nat) (found : bool) (xs : nat) (rest : list K) (g : rng) :
  Forall (fun x => weight x = 0) rest ->
  run (random_choose_weighted_loop weight result found 0 xs rest) g =
    (if found then result else (xs + length rest)%nat, g).
Proof.
  intros Hzero. revert xs.
  induction Hzero as [| x rest Hx _ IH]; intros xs; simpl.
  - by rewrite Nat.add_0_r.
  - rewrite Hx. change (Int.add 0 0) with 0.
    rewrite x_chance_in_y_zero, bind_ret, IH. by rewrite Nat.add_succ_r.
Qed.

Lemma random_choose_weighted_range_loop_zero {K : Type} (weight : K -> Z)
    (result start : nat) (rest : list K) (g : rng) :
  Forall (fun x => weight x = 0) rest ->
  run (random_choose_weighted_range_loop weight result 0 start rest) g =
    (result, g).
Proof.
  intros Hzero. revert start.
  induction Hzero as [| x rest Hx _ IH]; intros start; simpl; [done |].
  rewrite Hx. change (Int.add 0 0) with 0.
  by rewrite x_chance_in_y_zero, bind_ret, IH.
Qed.

Lemma weighted_all_zero {K : Type} (weight : K -> Z) (seq : list K) :
  Forall (fun entry => entry.2 = 0) (weighted weight seq) ->
  Forall (fun x => weight x = 0) seq.
Proof. unfold weighted. by rewrite Forall_fmap. Qed.

(** C2, as the code has it: on an input of total weight zero the variants over
    a collection, a fixed vector, a cursor and a range return their "no
    selection" value ([nullptr], -1, the past-the-end cursor, [end]); the
    variant over an argument list has no such value and returns its first
    argument. *)
Theorem zero_total_weight_selection (g : rng) :
  (forall (K : Type) (choices : list (K * Z)),
     weights_ok choices -> sum_weights choices = 0 ->
     run (random_choose_weighted choices) g = (None, g)) /\
  (forall choices : list Z,
     sum_positive choices = 0 ->
     run (random_choose_weighted_fixed choices) g = (-1, g)) /\
  (forall (K : Type) (seq : list K) (weight : K -> Z),
     weights_ok (weighted weight seq) ->
     sum_weights (weighted weight seq) = 0 ->
     run (random_choose_weighted_iter seq weight) g = (length seq, g) /\
     run (random_choose_weighted_range seq weight) g = (length seq, g)) /\
  (forall (K : Type) (cweight : Z) (curr : K) (args : list (Z * K)),
     weights_ok (pairs cweight curr args) ->
     sum_weights (pairs cweight curr args) = 0 ->
     run (random_choose_weighted_args cweight curr args) g = (curr, g)).
Proof.
  split; [| split; [| split]].
  - intros K choices Hok Hsum.
    pose proof (random_choose_weighted_all_zero choices g
                  (weights_all_zero _ (proj1 Hok) Hsum)) as Hnone.
    rewrite fst_random_choose_weighted in Hnone.
    rewrite run_random_choose_weighted, Hnone.
    rewrite total_weight_exact, Hsum by done. by rewrite random2_zero.
  - intros choices Hsum.
    rewrite run_random_choose_weighted_fixed.
    rewrite fixed_scan_skipped by by apply sum_positive_all_skipped.
    unfold fixed_total. rewrite fixed_total_from, Hsum;
      [| done | rewrite Hsum; unfold Int.INT_MAX; lia].
    by rewrite random2_zero.
  - intros K seq weight Hok Hsum.
    pose proof (weighted_all_zero _ _ (weights_all_zero _ (proj1 Hok) Hsum))
      as Hzero.
    split.
    + unfold random_choose_weighted_iter.
      by rewrite random_choose_weighted_loop_zero.
    + unfold random_choose_weighted_range.
      by rewrite random_choose_weighted_range_loop_zero.
  - intros K cweight curr args Hok Hsum.
    pose proof (weights_all_zero _ (proj1 Hok) Hsum) as Hzero.
    unfold pairs in Hzero. apply Forall_cons in Hzero as [Hc Hargs].
    simpl in Hc. subst cweight.
    apply random_choose_weighted_args_zero.
    unfold swapped in Hargs. by rewrite Forall_fmap in Hargs.
Qed.

Lemma zero_total_weight_selection_witness :
  run (random_choose_weighted [(10%nat, 0); (11%nat, 0)]) sample_rng =
    (None, sample_rng) /\
  run (random_choose_weighted_fixed [0; -2; 0]) sample_rng = (-1, sample_rng) /\
  run (random_choose_weighted_iter [10; 11; 12] (fun _ => 0)) sample_rng =
    (3%nat, sample_rng) /\
  run (random_choose_weighted_args 0 10%nat [(0, 11%nat); (0, 12%nat)])
      sample_rng = (10%nat, sample_rng).
Proof.
  destruct (zero_total_weight_selection sample_rng)
    as (Hmap & Hfixed & Hiter & Hargs).
  split; [| split; [| split]].
  - apply Hmap; [| done].
    split; [repeat constructor; simpl; lia | vm_compute; discriminate].
  - by apply Hfixed.
  - apply (Hiter Z [10; 11; 12] (fun _ => 0)); [| done].
    split; [repeat constructor; simpl; lia | vm_compute; discriminate].
  - apply Hargs; [| done].
    split; [repeat constructor; simpl; lia | vm_compute; discriminate].
Defined.

(** C2 fails for the variant over an argument list: with every weight zero
    it returns its first argument, an ordinary element. *)
Lemma zero_total_weight_args_returns_element :
  sum_weights (pairs 0 7%nat [(0, 8%nat); (0, 9%nat)]) = 0 /\
  (run (random_choose_weighted_args 0 7%nat [(0, 8%nat); (0, 9%nat)])
       sample_rng).1 = 7%nat /\
  7%nat ∈ (pairs 0 7%nat [(0, 8%nat); (0, 9%nat)]).*1.
Proof. repeat split. apply list_elem_of_here. Qed.

(** ** Shuffle *)

Lemma iter_swap_Permutation {A : Type} (i j : nat) (l : list A) :
  iter_swap i j l ≡ₚ l.
Proof.
  unfold iter_swap.
  destruct (l !! i) as [x |] eqn:Hi; [| done].
  destruct (l !! j) as [y |] eqn:Hj; [| done].
  by apply Permutation_insert_swap.
Qed.

Lemma run_shuffle_array_loop {A : Type} (n' : nat) (l : list A) (g : rng) :
  (0 < n')%nat ->
  run (shuffle_array_loop (S n') l) g =
    let draw := run (random2 (Int.wrap (Z.of_nat (S n')))) g in
    run (shuffle_array_loop n' (iter_swap (Z.to_nat draw.1) n' l)) draw.2.
Proof.
  intros Hn. cbn [shuffle_array_loop].
  destruct (Nat.eqb_spec n' 0%nat); [lia |].
  exact (run_bind (random2 (Int.wrap (Z.of_nat (S n')))) _ g).
Qed.

Lemma shuffle_array_loop_Permutation {A : Type} (n : nat) (l : list A)
    (g : rng) :
  (run (shuffle_array_loop n l) g).1 ≡ₚ l.
Proof.
  revert l g. induction n as [| n' IH]; intros l g; [done |].
  destruct (Nat.eq_dec n' 0%nat) as [-> | Hn]; [done |].
  rewrite run_shuffle_array_loop by lia. cbv zeta.
  rewrite IH. apply iter_swap_Permutation.
Qed.

Lemma shuffle_array_loop_steps {A : Type} (n : nat) (l : list A) (g : rng) :
  Z.of_nat n <= Int.INT_MAX ->
  (run (shuffle_array_loop n l) g).1 = fisher_yates n (shuffle_draws n g) l.
Proof.
  revert l g. induction n as [| n' IH]; intros l g Hn; [done |].
  destruct (Nat.eq_dec n' 0%nat) as [-> | Hn']; [done |].
  rewrite run_shuffle_array_loop by lia. cbv zeta.
  rewrite Int_wrap_id by (unfold Int.in_range, Int.INT_MIN; lia).
  rewrite IH by lia.
  cbn [shuffle_draws]. destruct (Nat.eqb_spec n' 0%nat); [lia |].
  cbn [fisher_yates]. by rewrite Nat.sub_succ, Nat.sub_0_r.
Qed.

Lemma shuffle_draws_length (n : nat) (g : rng) :
  length (shuffle_draws n g) = (n - 1)%nat.
Proof.
  revert g. induction n as [| n' IH]; intros g; [done |].
  cbn [shuffle_draws]. destruct (Nat.eqb_spec n' 0%nat) as [-> | Hn]; [done |].
  cbn [length]. rewrite IH. lia.
Qed.

Lemma shuffle_draws_bound (n : nat) (g : rng) (k i : nat) :
  shuffle_draws n g !! k = Some i -> (i < n - k)%nat.
Proof.
  revert g k i. induction n as [| n' IH]; intros g k i; [done |].
  cbn [shuffle_draws]. destruct (Nat.eqb_spec n' 0%nat) as [-> | Hn]; [done |].
  pose proof (random2_below (Z.of_nat (S n')) g) as Hlt.
  pose proof (random2_nonneg (Z.of_nat (S n')) g) as Hge.
  set (draw := run (random2 (Z.of_nat (S n'))) g) in *. clearbody draw.
  destruct k as [| k].
  - intros [= <-]. lia.
  - intros Hk. apply IH in Hk. lia.
Qed.

(** C4: [shuffle_array] performs the Fisher-Yates steps, swapping for [n]
    from the length down to 2 the element at the index [random2(n)] draws in
    [0, n), each index with probability [1/n], with the element at position
    [n - 1]; and its output is a permutation of its input. *)
Theorem shuffle_array_fisher_yates {A : Type} (l : list A) (g : rng) :
  (run (shuffle_array l) g).1 ≡ₚ l /\
  (Z.of_nat (length l) <= Int.INT_MAX ->
   let draws := shuffle_draws (length l) g in
   length draws = (length l - 1)%nat /\
   (forall k i : nat, draws !! k = Some i -> (i < length l - k)%nat) /\
   (forall n i : Z,
      0 <= i < n ->
      prob (fun r => r =? i) (random2 n) = (1 / Qc_of_Z n)%Qc) /\
   (run (shuffle_array l) g).1 = fisher_yates (length l) draws l).
Proof.
  split; [apply shuffle_array_loop_Permutation |].
  intros Hlen draws. subst draws.
  split; [apply shuffle_draws_length |].
  split; [apply shuffle_draws_bound |].
  split; [apply random2_uniform |].
  by apply shuffle_array_loop_steps.
Qed.

Lemma shuffle_array_fisher_yates_witness :
  (run (shuffle_array [10; 20; 30; 40]) sample_rng).1 ≡ₚ [10; 20; 30; 40] /\
  (run (shuffle_array [10; 20; 30; 40]) sample_rng).1 =
    fisher_yates 4 (shuffle_draws 4 sample_rng) [10; 20; 30; 40].
Proof.
  destruct (shuffle_array_fisher_yates [10; 20; 30; 40] sample_rng)
    as [Hperm Hsteps].
  split; [exact Hperm |].
  apply Hsteps. vm_compute. discriminate.
Defined.

(** ** The deferred random tree *)

Lemma Qcdiv_scale (k x y : Z) :
  k <> 0 ->
  (Qc_of_Z (k * x) / Qc_of_Z (k * y))%Qc = (Qc_of_Z x / Qc_of_Z y)%Qc.
Proof.
  intros Hk. rewrite !Z2Qc_inj_mul.
  assert (Qc_of_Z k <> 0%Qc) as Hk'.
  { intros Heq. rewrite <- Z2Qc_inj_0 in Heq. by apply Z2Qc_inj in Heq. }
  destruct (Z.eq_dec y 0) as [-> | Hy].
  - rewrite Z2Qc_inj_0, Qcmult_0_r. unfold Qcdiv.
    replace (/ 0)%Qc with 0%Qc by (by apply Qc_is_canon). ring.
  - assert (Qc_of_Z y <> 0%Qc) as Hy'.
    { intros Heq. rewrite <- Z2Qc_inj_0 in Heq. by apply Z2Qc_inj in Heq. }
    by field.
Qed.

Lemma Qc_floor_mono (p q : Qc) : (p ≤ q)%Qc -> Qc_floor p <= Qc_floor q.
Proof. intros Hpq. unfold Qc_floor. by apply Qfloor_resp_le. Qed.

Module defer_rand_facts.
Import defer_rand.

Lemma fraction_of_nonneg (bs : list Z) :
  Forall (fun b => 0 <= b < Int.modulus) bs -> (0 ≤ fraction_of bs)%Qc.
Proof.
  induction 1 as [| b bs Hb _ IH]; simpl; [done |].
  unfold Qcdiv. apply Qcmult_nonneg_nonneg.
  - apply Qcplus_nonneg_nonneg; [| done].
    rewrite <- Z2Qc_inj_0. apply (proj1 (Z2Qc_inj_le 0 b)). lia.
  - apply Qclt_le_weak, Qcinv_pos. rewrite <- Z2Qc_inj_0.
    by apply (proj1 (Z2Qc_inj_lt 0 Int.modulus)).
Qed.

Lemma resolve_wf (nd : t) (g : rng) : wf nd -> wf (resolve nd g).1.
Proof.
  unfold wf, resolve. destruct (bits nd) as [| b bs] eqn:Hbits; simpl.
  - intros _. constructor; [| done]. apply Z.mod_pos_bound. done.
  - by rewrite Hbits.
Qed.

(** Once generated, the fraction is not generated again, and the generator
    is not consulted. *)
Lemma resolve_resolved (nd : t) (g g' : rng) :
  resolve (resolve nd g).1 g' = ((resolve nd g).1, g').
Proof.
  unfold resolve at 2 3. destruct (bits nd) as [| b bs] eqn:Hbits; simpl.
  - done.
  - unfold resolve. by rewrite Hbits.
Qed.

Lemma x_chance_in_y_resolve (x y : Z) (nd : t) (g : rng) :
  x_chance_in_y x y nd g =
    (bool_decide (fraction (resolve nd g).1 < Qc_of_Z x / Qc_of_Z y)%Qc,
     resolve nd g).
Proof. unfold x_chance_in_y. by destruct (resolve nd g). Qed.

Lemma random2_resolve (maxp1 : Z) (nd : t) (g : rng) :
  random2 maxp1 nd g =
    (Qc_floor (fraction (resolve nd g).1 * Qc_of_Z maxp1)%Qc, resolve nd g).
Proof. unfold random2. by destruct (resolve nd g). Qed.

End defer_rand_facts.

(** C1: on a node whose fraction was generated by a first access (with the
    generator in state [g]), later queries (with the generator in any state
    [g']) answer from that one fraction: they leave the node as it is,
    [x_chance_in_y(1,2)] and [x_chance_in_y(50,100)] agree (as do any two
    queries whose arguments differ by a common factor), a query repeated
    with the same arguments gives the same answer, and [random2] is monotone
    in its argument. *)
Theorem defer_rand_scale_invariant_memoized (nd : defer_rand.t) (g g' : rng) :
  defer_rand.wf nd ->
  let nd' := (defer_rand.resolve nd g).1 in
  (forall x y : Z,
     (defer_rand.x_chance_in_y x y nd g).2.1 = nd' /\
     (defer_rand.x_chance_in_y x y nd' g').2 = (nd', g')) /\
  (forall m : Z,
     (defer_rand.random2 m nd g).2.1 = nd' /\
     (defer_rand.random2 m nd' g').2 = (nd', g')) /\
  (defer_rand.x_chance_in_y 1 2 nd g).1 =
    (defer_rand.x_chance_in_y 50 100 nd' g').1 /\
  (forall k x y : Z,
     k <> 0 ->
     (defer_rand.x_chance_in_y x y nd g).1 =
       (defer_rand.x_chance_in_y (k * x) (k * y) nd' g').1) /\
  (forall x y : Z,
     (defer_rand.x_chance_in_y x y nd g).1 =
       (defer_rand.x_chance_in_y x y nd' g').1) /\
  (forall m : Z,
     (defer_rand.random2 m nd g).1 = (defer_rand.random2 m nd' g').1) /\
  (forall a b : Z,
     a <= b ->
     (defer_rand.random2 a nd g).1 <= (defer_rand.random2 b nd' g').1 /\
     (defer_rand.random2 a nd' g').1 <= (defer_rand.random2 b nd g).1).
Proof.
  intros Hwf nd'. subst nd'.
  pose proof (defer_rand_facts.resolve_resolved nd g g') as Hagain.
  assert (forall k x y : Z, k <> 0 ->
            (defer_rand.x_chance_in_y x y nd g).1 =
              (defer_rand.x_chance_in_y (k * x) (k * y)
                 (defer_rand.resolve nd g).1 g').1) as Hscale.
  { intros k x y Hk. rewrite !defer_rand_facts.x_chance_in_y_resolve, Hagain.
    simpl. by rewrite Qcdiv_scale. }
  assert (forall a b : Z, a <= b ->
            Qc_floor (defer_rand.fraction (defer_rand.resolve nd g).1
                      * Qc_of_Z a)%Qc
            <= Qc_floor (defer_rand.fraction (defer_rand.resolve nd g).1
                         * Qc_of_Z b)%Qc) as Hmono.
  { intros a b Hab. apply Qc_floor_mono, Qcmult_le_mono_nonneg_l.
    - apply defer_rand_facts.fraction_of_nonneg.
      by apply defer_rand_facts.resolve_wf.
    - by apply (proj1 (Z2Qc_inj_le a b)). }
  split; [| split; [| split; [| split; [| split; [| split]]]]].
  - intros x y. by rewrite !defer_rand_facts.x_chance_in_y_resolve, Hagain.
  - intros m. by rewrite !defer_rand_facts.random2_resolve, Hagain.
  - apply (Hscale 50 1 2). lia.
  - exact Hscale.
  - intros x y. rewrite (Hscale 1 x y) by lia.
    by rewrite !Z.mul_1_l.
  - intros m. by rewrite !defer_rand_facts.random2_resolve, Hagain.
  - intros a b Hab. rewrite !defer_rand_facts.random2_resolve, Hagain.
    simpl. split; by apply Hmono.
Qed.

Lemma defer_rand_scale_invariant_memoized_witness :
  (defer_rand.x_chance_in_y 1 2 defer_rand.fresh sample_rng).1 =
    (defer_rand.x_chance_in_y 50 100
       (defer_rand.resolve defer_rand.fresh sample_rng).1
       (Rng (fun _ => 99) 0)).1.
Proof.
  apply (defer_rand_scale_invariant_memoized defer_rand.fresh sample_rng
           (Rng (fun _ => 99) 0)).
  constructor.
Defined.

(** ** The distribution of the weighted choices *)

Lemma prob_random2_cases {A : Type} (P : A -> bool) (max thr : Z)
    (k : Z -> Rand A) (t e : Qc) :
  0 <= thr <= max -> 0 < max ->
  (forall r, 0 <= r < max -> prob P (k r) = if r <? thr then t else e) ->
  prob P (random2 max ≫= k) =
    ((Qc_of_Z thr * t + Qc_of_Z (max - thr) * e) / Qc_of_Z max)%Qc.
Proof.
  intros Hthr Hmax Hk. rewrite prob_random2 by done.
  rewrite <- sumQc_threshold by done. f_equal.
  apply sumQc_ext. intros r Hr. apply Hk. lia.
Qed.

Lemma prob_ret {A : Type} (P : A -> bool) (a : A) :
  prob P (mret a) = if P a then 1%Qc else 0%Qc.
Proof. done. Qed.

Section ArgumentList.
Context {K : Type} (P : K -> bool).

Lemma sum_weights_cons (k : K) (w : Z) (choices : list (K * Z)) :
  sum_weights ((k, w) :: choices) = w + sum_weights choices.
Proof. done. Qed.

Lemma mass_cons (k : K) (w : Z) (choices : list (K * Z)) :
  mass P ((k, w) :: choices) = (if P k then w else 0) + mass P choices.
Proof. done. Qed.

Lemma swapped_cons (nweight : Z) (next : K) (args : list (Z * K)) :
  swapped ((nweight, next) :: args) = (next, nweight) :: swapped args.
Proof. done. Qed.

Lemma weights_ok_pairs (cweight : Z) (curr : K) (args : list (Z * K)) :
  weights_ok (pairs cweight curr args) <->
  0 <= cweight /\ Forall (fun entry => 0 <= entry.2) (swapped args) /\
  cweight + sum_weights (swapped args) <= Int.INT_MAX.
Proof. unfold weights_ok, pairs. rewrite Forall_cons. simpl. tauto. Qed.

(** The argument-list variant returns a value satisfying [P] with the
    probability the weights give to such values. *)
Lemma prob_random_choose_weighted_args (cweight : Z) (curr : K)
    (args : list (Z * K)) :
  weights_ok (pairs cweight curr args) ->
  0 < sum_weights (pairs cweight curr args) ->
  prob P (random_choose_weighted_args cweight curr args) =
    (Qc_of_Z (mass P (pairs cweight curr args))
     / Qc_of_Z (sum_weights (pairs cweight curr args)))%Qc.
Proof.
  revert cweight curr.
  induction args as [| [nweight next] args IH]; intros cweight curr Hok Htotal.
  - unfold pairs in *. cbn [swapped fmap list_fmap] in *.
    rewrite sum_weights_cons in Htotal. rewrite sum_weights_cons, mass_cons.
    cbn [mass sum_weights foldr] in *. rewrite !Z.add_0_r in *.
    cbn [random_choose_weighted_args].
    rewrite prob_ret. pose proof (Qc_of_Z_pos cweight Htotal).
    destruct (P curr); [by field | rewrite Z2Qc_inj_0; by field].
  - apply weights_ok_pairs in Hok as (Hc & Hargs & Hfit).
    unfold pairs in Htotal |- *.
    rewrite swapped_cons in *. rewrite !sum_weights_cons in *.
    rewrite !mass_cons.
    apply Forall_cons in Hargs as [Hn Hargs]. simpl in Hn.
    pose proof (sum_weights_nonneg _ Hargs) as Hrest.
    assert (forall v, weights_ok (pairs (cweight + nweight) v args)) as Hok'.
    { intros v. apply weights_ok_pairs. split; [lia |]. split; [done | lia]. }
    assert (forall v, sum_weights (pairs (cweight + nweight) v args)
                      = cweight + nweight + sum_weights (swapped args))
      as Hsum' by done.
    assert (forall v, mass P (pairs (cweight + nweight) v args)
                      = (if P v then cweight + nweight else 0)
                        + mass P (swapped args)) as Hmass' by done.
    cbn [random_choose_weighted_args].
    rewrite Int_add_exact by (apply in_range_nonneg; lia).
    destruct (Z.eq_dec (cweight + nweight) 0) as [Hzero | Hpos].
    + assert (cweight = 0) as -> by lia. assert (nweight = 0) as -> by lia.
      rewrite prob_random2_zero by done. change (0 <? 0) with false.
      change (0 + 0) with 0 in *. cbn iota.
      rewrite IH by (rewrite ?Hsum'; auto; lia).
      rewrite Hmass', Hsum'. by destruct (P curr), (P next).
    + assert (0 < cweight + nweight) as Hcn by lia.
      rewrite (prob_random2_cases P (cweight + nweight) nweight _
                 (prob P (random_choose_weighted_args (cweight + nweight)
                            next args))
                 (prob P (random_choose_weighted_args (cweight + nweight)
                            curr args))); [| lia | lia |].
      2:{ intros r _. by destruct (r <? nweight). }
      rewrite !IH by (rewrite ?Hsum'; auto; lia).
      rewrite !Hmass', !Hsum'.
      replace (cweight + nweight - nweight) with cweight by lia.
      replace (cweight + (nweight + sum_weights (swapped args)))
        with (cweight + nweight + sum_weights (swapped args)) by lia.
      pose proof (Qc_of_Z_pos _ Hcn) as Hcn0.
      assert (0 < cweight + nweight + sum_weights (swapped args)) as Ht by lia.
      pose proof (Qc_of_Z_pos _ Ht) as Ht0.
      destruct (P curr), (P next);
        rewrite ?Z.add_0_l, ?Z2Qc_inj_add in *; field; done.
Qed.
End ArgumentList.

Section Cursor.
Context {K : Type} (P : nat -> bool) (weight : K -> Z).

Lemma weighted_cons (x : K) (rest : list K) :
  weighted weight (x :: rest) = (x, weight x) :: weighted weight rest.
Proof. done. Qed.

Lemma mass_at_cons (i : nat) (k : K) (w : Z) (choices : list (K * Z)) :
  mass_at P i ((k, w) :: choices) =
    (if P i then w else 0) + mass_at P (S i) choices.
Proof. done. Qed.

Lemma random_choose_weighted_loop_cons (result : nat) (found : bool)
    (totalweight : Z) (xs : nat) (x : K) (rest : list K) :
  random_choose_weighted_loop weight result found totalweight xs (x :: rest) =
    b ← x_chance_in_y (weight x) (Int.add totalweight (weight x));
    if b : bool
    then random_choose_weighted_loop weight xs true
           (Int.add totalweight (weight x)) (S xs) rest
    else random_choose_weighted_loop weight result found
           (Int.add totalweight (weight x)) (S xs) rest.
Proof. done. Qed.

(** The cursor variant stops on a position satisfying [P] with the
    probability the weights give to such positions; [totalweight] is the
    weight already seen, all of it won by [result]. *)
Lemma prob_random_choose_weighted_loop (result : nat) (found : bool)
    (totalweight : Z) (xs : nat) (rest : list K) :
  Forall (fun entry => 0 <= entry.2) (weighted weight rest) ->
  0 <= totalweight ->
  totalweight + sum_weights (weighted weight rest) <= Int.INT_MAX ->
  (0 < totalweight -> found = true) ->
  0 < totalweight + sum_weights (weighted weight rest) ->
  prob P (random_choose_weighted_loop weight result found totalweight xs rest)
  = (Qc_of_Z ((if P result then totalweight else 0)
              + mass_at P xs (weighted weight rest))
     / Qc_of_Z (totalweight + sum_weights (weighted weight rest)))%Qc.
Proof.
  revert result found totalweight xs.
  induction rest as [| x rest IH];
    intros result found totalweight xs Hpos Htot Hfit Hfound Htotal.
  - cbn [weighted fmap list_fmap sum_weights mass_at foldr] in *.
    rewrite !Z.add_0_r in *. rewrite (Hfound Htotal).
    cbn [random_choose_weighted_loop]. rewrite prob_ret.
    pose proof (Qc_of_Z_pos _ Htotal).
    destruct (P result); [by field | rewrite Z2Qc_inj_0; by field].
  - rewrite weighted_cons in *. rewrite sum_weights_cons in *.
    rewrite mass_at_cons. apply Forall_cons in Hpos as [Hx Hpos].
    simpl in Hx. pose proof (sum_weights_nonneg _ Hpos) as Hrest.
    rewrite random_choose_weighted_loop_cons.
    rewrite Int_add_exact by (apply in_range_nonneg; lia).
    destruct (Z.eq_dec (totalweight + weight x) 0) as [Hzero | Hnz].
    + assert (totalweight = 0) as -> by lia.
      assert (weight x = 0) as -> by lia.
      change (0 + 0) with 0. rewrite x_chance_in_y_zero, bind_ret.
      rewrite IH by (auto; lia).
      by destruct (P result), (P xs).
    + rewrite prob_x_chance_in_y by lia.
      replace (totalweight + weight x - weight x) with totalweight by lia.
      replace (totalweight + (weight x + sum_weights (weighted weight rest)))
        with (totalweight + weight x + sum_weights (weighted weight rest))
        by lia.
      assert (0 < totalweight + weight x) as Hcn by lia.
      pose proof (Qc_of_Z_pos _ Hcn) as Hcn0.
      assert (0 < totalweight + weight x + sum_weights (weighted weight rest))
        as Ht by lia.
      pose proof (Qc_of_Z_pos _ Ht) as Ht0.
      rewrite (IH xs true) by (auto; lia).
      destruct (Z.eq_dec totalweight 0) as [-> | Htw].
      * rewrite Z2Qc_inj_0, Qcmult_0_l. rewrite !Z.add_0_l in *.
        destruct (P result), (P xs);
          rewrite ?Z.add_0_l, ?Z2Qc_inj_add in *; field; done.
      * rewrite (IH result found)
          by first [done | lia | intros _; apply Hfound; lia].
        destruct (P result), (P xs);
          rewrite ?Z.add_0_l, ?Z2Qc_inj_add in *; field; done.
Qed.

Lemma random_choose_weighted_range_loop_cons (result : nat)
    (totalweight : Z) (start : nat) (x : K) (rest : list K) :
  random_choose_weighted_range_loop weight result totalweight start
    (x :: rest) =
    b ← x_chance_in_y (weight x) (Int.add totalweight (weight x));
    random_choose_weighted_range_loop weight
      (if b : bool then start else result)
      (Int.add totalweight (weight x)) (S start) rest.
Proof. done. Qed.

Lemma prob_random_choose_weighted_range_loop (result : nat)
    (totalweight : Z) (start : nat) (rest : list K) :
  Forall (fun entry => 0 <= entry.2) (weighted weight rest) ->
  0 <= totalweight ->
  totalweight + sum_weights (weighted weight rest) <= Int.INT_MAX ->
  0 < totalweight + sum_weights (weighted weight rest) ->
  prob P (random_choose_weighted_range_loop weight result totalweight start
            rest)
  = (Qc_of_Z ((if P result then totalweight else 0)
              + mass_at P start (weighted weight rest))
     / Qc_of_Z (totalweight + sum_weights (weighted weight rest)))%Qc.
Proof.
  revert result totalweight start.
  induction rest as [| x rest IH];
    intros result totalweight start Hpos Htot Hfit Htotal.
  - cbn [weighted fmap list_fmap sum_weights mass_at foldr] in *.
    rewrite !Z.add_0_r in *.
    cbn [random_choose_weighted_range_loop]. rewrite prob_ret.
    pose proof (Qc_of_Z_pos _ Htotal).
    destruct (P result); [by field | rewrite Z2Qc_inj_0; by field].
  - rewrite weighted_cons in *. rewrite sum_weights_cons in *.
    rewrite mass_at_cons. apply Forall_cons in Hpos as [Hx Hpos].
    simpl in Hx. pose proof (sum_weights_nonneg _ Hpos) as Hrest.
    rewrite random_choose_weighted_range_loop_cons.
    rewrite Int_add_exact by (apply in_range_nonneg; lia).
    destruct (Z.eq_dec (totalweight + weight x) 0) as [Hzero | Hnz].
    + assert (totalweight = 0) as -> by lia.
      assert (weight x = 0) as -> by lia.
      change (0 + 0) with 0. rewrite x_chance_in_y_zero, bind_ret.
      rewrite IH by (auto; lia).
      by destruct (P result), (P start).
    + rewrite prob_x_chance_in_y by lia.
      replace (totalweight + weight x - weight x) with totalweight by lia.
      replace (totalweight + (weight x + sum_weights (weighted weight rest)))
        with (totalweight + weight x + sum_weights (weighted weight rest))
        by lia.
      assert (0 < totalweight + weight x) as Hcn by lia.
      pose proof (Qc_of_Z_pos _ Hcn) as Hcn0.
      assert (0 < totalweight + weight x + sum_weights (weighted weight rest))
        as Ht by lia.
      pose proof (Qc_of_Z_pos _ Ht) as Ht0.
      rewrite !IH by (auto; lia).
      destruct (P result), (P start);
        rewrite ?Z.add_0_l, ?Z2Qc_inj_add in *; field; done.
Qed.
End Cursor.

Section Batch.
Context {K : Type}.

(** Among the draws below the total, as many stop the scan at a position as
    that position weighs. *)
Lemma count_scan_choices (Q : option nat -> bool) (pre rest : list (K * Z)) :
  weights_ok (pre ++ rest) ->
  sumQc (Z.to_nat (sum_weights rest))
    (fun r => if Q (scan_choices (sum_weights pre + Z.of_nat r)
                      (sum_weights pre) (length pre) rest)
              then 1 else 0)%Qc =
    Qc_of_Z (mass_at (fun p => Q (Some p)) (length pre) rest).
Proof.
  revert pre. induction rest as [| [k w] rest IH]; intros pre [Hpos Hfit].
  - simpl. by rewrite Z2Qc_inj_0.
  - assert (0 <= sum_weights pre /\ 0 <= w /\ 0 <= sum_weights rest)
      as (Hpre & Hw & Hrest).
    { apply Forall_app in Hpos as [Hp Hr]. inversion Hr; subst.
      auto using sum_weights_nonneg. }
    rewrite sum_weights_app, sum_weights_cons in Hfit.
    rewrite sum_weights_cons, mass_at_cons.
    replace (Z.to_nat (w + sum_weights rest))
      with (Z.to_nat w + Z.to_nat (sum_weights rest))%nat by lia.
    rewrite sumQc_app.
    rewrite (sumQc_ext (Z.to_nat w) _
               (fun _ => if Q (Some (length pre)) then 1 else 0)%Qc).
    2:{ intros r Hr. rewrite scan_choices_key.
        rewrite Int_add_exact by (apply in_range_nonneg; lia).
        destruct (Z.ltb_spec (sum_weights pre + Z.of_nat r)
                    (sum_weights pre + w)); [done | lia]. }
    rewrite sumQc_const, Z2Nat.id by done.
    specialize (IH (pre ++ [(k, w)])).
    rewrite sum_weights_app, sum_weights_cons, length_app in IH.
    simpl in IH. rewrite Z.add_0_r, Nat.add_1_r in IH.
    rewrite (sumQc_ext (Z.to_nat (sum_weights rest)) _
               (fun r => if Q (scan_choices
                                 (sum_weights pre + w + Z.of_nat r)
                                 (sum_weights pre + w) (S (length pre)) rest)
                         then 1 else 0)%Qc).
    2:{ intros r Hr. rewrite scan_choices_key.
        rewrite Int_add_exact by (apply in_range_nonneg; lia).
        destruct (Z.ltb_spec (sum_weights pre + Z.of_nat (Z.to_nat w + r))
                    (sum_weights pre + w)); [lia |].
        replace (sum_weights pre + Z.of_nat (Z.to_nat w + r))
          with (sum_weights pre + w + Z.of_nat r) by lia.
        done. }
    rewrite IH.
    + rewrite Z2Qc_inj_add. destruct (Q (Some (length pre)));
        rewrite ?Z2Qc_inj_0; ring.
    + rewrite <- (assoc app). simpl. split; [done |].
      rewrite sum_weights_app, sum_weights_cons. lia.
Qed.

(** The batch algorithm returns a result satisfying [Q] with the probability
    the weights give to the positions satisfying it. *)
Lemma prob_random_choose_weighted_mass (Q : option nat -> bool)
    (choices : list (K * Z)) :
  weights_ok choices -> 0 < sum_weights choices ->
  prob Q (random_choose_weighted choices) =
    (Qc_of_Z (mass_at (fun p => Q (Some p)) 0 choices)
     / Qc_of_Z (sum_weights choices))%Qc.
Proof.
  intros Hok Htotal. unfold random_choose_weighted.
  rewrite total_weight_exact, prob_random2 by done. f_equal.
  pose proof (count_scan_choices Q [] choices Hok) as Hcount.
  cbn [app length sum_weights foldr] in Hcount. rewrite <- Hcount.
  apply sumQc_ext. intros r _. by rewrite Z.add_0_l.
Qed.

Lemma mass_at_deref (P : K -> bool) (pre rest : list (K * Z)) :
  mass_at (fun p => from_option P false (deref (pre ++ rest) p))
          (length pre) rest = mass P rest.
Proof.
  revert pre. induction rest as [| [k w] rest IH]; intros pre; [done |].
  rewrite mass_at_cons, mass_cons. unfold deref at 1.
  rewrite list_lookup_middle by done. simpl from_option.
  specialize (IH (pre ++ [(k, w)])).
  replace ((pre ++ [(k, w)]) ++ rest) with (pre ++ (k, w) :: rest) in IH
    by (by rewrite <- (assoc app)).
  rewrite length_app, Nat.add_1_r in IH. by rewrite IH.
Qed.
End Batch.

(** C3: the argument-list and cursor variants pass once over their input
    from left to right with a running total of the weights; at each element
    the candidate is replaced with probability [newWeight / runningTotal];
    and when some weight is positive every event has the same probability
    under them as under the batch algorithm run on the same weights, namely
    the weight of the event over the total weight. *)
Theorem streaming_selection_distribution :
  (forall cweight nweight : Z,
     0 <= cweight -> 0 <= nweight -> 0 < cweight + nweight ->
     prob (fun r => r <? nweight) (random2 (cweight + nweight)) =
       (Qc_of_Z nweight / Qc_of_Z (cweight + nweight))%Qc) /\
  (forall cweight totalweight : Z,
     0 <= cweight <= totalweight -> 0 < totalweight ->
     prob (fun b : bool => b) (x_chance_in_y cweight totalweight) =
       (Qc_of_Z cweight / Qc_of_Z totalweight)%Qc) /\
  (forall (K : Type) (P : K -> bool) (cweight : Z) (curr : K)
          (args : list (Z * K)),
     let choices := pairs cweight curr args in
     weights_ok choices -> 0 < sum_weights choices ->
     prob P (random_choose_weighted_args cweight curr args) =
       (Qc_of_Z (mass P choices) / Qc_of_Z (sum_weights choices))%Qc /\
     prob P (random_choose_weighted_args cweight curr args) =
       prob (fun r => from_option P false (r ≫= deref choices))
            (random_choose_weighted choices)) /\
  (forall (K : Type) (P : nat -> bool) (seq : list K) (weight : K -> Z),
     let choices := weighted weight seq in
     weights_ok choices -> 0 < sum_weights choices ->
     prob P (random_choose_weighted_iter seq weight) =
       (Qc_of_Z (mass_at P 0 choices) / Qc_of_Z (sum_weights choices))%Qc /\
     prob P (random_choose_weighted_iter seq weight) =
       prob (fun r => P (default (length seq) r))
            (random_choose_weighted choices) /\
     prob P (random_choose_weighted_range seq weight) =
       prob (fun r => P (default (length seq) r))
            (random_choose_weighted choices)).
Proof.
  split; [| split; [| split]].
  - intros cweight nweight Hc Hn Hpos.
    etrans.
    + apply (prob_random2_cases (fun r => r <? nweight) (cweight + nweight)
               nweight mret 1%Qc 0%Qc); [lia | done |].
      intros r _. rewrite prob_ret. by destruct (r <? nweight).
    + pose proof (Qc_of_Z_pos _ Hpos). by field.
  - intros cweight totalweight Hc Hpos.
    pose proof (prob_x_chance_in_y (fun b : bool => b) cweight totalweight
                  mret Hc Hpos) as Hprob.
    rewrite !prob_ret in Hprob.
    assert (x_chance_in_y cweight totalweight ≫= mret
            = x_chance_in_y cweight totalweight) as Hbind.
    { unfold x_chance_in_y.
      by destruct (cweight <=? 0), (totalweight <=? cweight). }
    rewrite Hbind in Hprob. rewrite Hprob.
    pose proof (Qc_of_Z_pos _ Hpos). by field.
  - intros K P cweight curr args choices Hok Hpos. subst choices.
    rewrite prob_random_choose_weighted_args by done. split; [done |].
    rewrite prob_random_choose_weighted_mass by done.
    by rewrite <- (mass_at_deref P [] (pairs cweight curr args)).
  - intros K P seq weight choices Hok Hpos. subst choices.
    destruct Hok as [Hnonneg Hfit].
    assert (prob P (random_choose_weighted_iter seq weight) =
            (Qc_of_Z (mass_at P 0 (weighted weight seq))
             / Qc_of_Z (sum_weights (weighted weight seq)))%Qc) as Hiter.
    { unfold random_choose_weighted_iter.
      rewrite prob_random_choose_weighted_loop by (done || lia).
      rewrite !Z.add_0_l. by destruct (P 0%nat). }
    assert (prob P (random_choose_weighted_range seq weight) =
            (Qc_of_Z (mass_at P 0 (weighted weight seq))
             / Qc_of_Z (sum_weights (weighted weight seq)))%Qc) as Hrange.
    { unfold random_choose_weighted_range.
      rewrite prob_random_choose_weighted_range_loop by (done || lia).
      rewrite !Z.add_0_l. by destruct (P (length seq)). }
    rewrite Hiter, Hrange.
    by rewrite prob_random_choose_weighted_mass.
Qed.

Lemma streaming_selection_distribution_witness :
  prob (fun v => (v =? 11)%nat)
       (random_choose_weighted_args 1 10%nat [(2, 11%nat); (0, 12%nat)]) =
    prob (fun r =>
            from_option (fun v => (v =? 11)%nat) false
              (r ≫= deref (pairs 1 10%nat [(2, 11%nat); (0, 12%nat)])))
         (random_choose_weighted (pairs 1 10%nat [(2, 11%nat); (0, 12%nat)])) /\
  prob (fun p => (p =? 2)%nat)
       (random_choose_weighted_iter [10; 11; 12] (fun x => x - 10)) =
    prob (fun r => (default 3%nat r =? 2)%nat)
         (random_choose_weighted (weighted (fun x => x - 10) [10; 11; 12])) /\
  prob (fun b : bool => b) (x_chance_in_y 2 5) = (Qc_of_Z 2 / Qc_of_Z 5)%Qc.
Proof.
  destruct streaming_selection_distribution as (_ & Hstep & Hargs & Hiter).
  split; [| split].
  - apply (Hargs nat (fun v => (v =? 11)%nat) 1 10%nat
                 [(2, 11%nat); (0, 12%nat)]).
    + split; [repeat constructor; simpl; lia | vm_compute; discriminate].
    + vm_compute. reflexivity.
  - apply (Hiter Z (fun p => (p =? 2)%nat) [10; 11; 12] (fun x => x - 10)).
    + split; [repeat constructor; simpl; lia | vm_compute; discriminate].
    + vm_compute. reflexivity.
  - apply Hstep; lia.
Defined.

(** * Further properties *)

(** ** Uniform choices *)

Lemma Int_wrap_le (z : Z) : 0 <= z -> Int.wrap z <= z.
Proof.
  intros Hz. unfold Int.wrap, Int.modulus.
  pose proof (Z.mod_le (z + 2147483648) 4294967296). lia.
Qed.

(** An index drawn for a positive [size_t] count is below the count, even
    when the count does not fit in an [int]. *)
Lemma random2_index (n : nat) (g : rng) :
  (0 < n)%nat ->
  (Z.to_nat (run (random2 (Int.wrap (Z.of_nat n))) g).1 < n)%nat.
Proof.
  intros Hn. pose proof (Int_wrap_le (Z.of_nat n)) as Hle.
  destruct (Z.le_gt_cases (Int.wrap (Z.of_nat n)) 0) as [Hneg | Hpos].
  - rewrite random2_zero by done. simpl. lia.
  - pose proof (random2_below _ g Hpos). pose proof (random2_nonneg
      (Int.wrap (Z.of_nat n)) g). lia.
Qed.

Lemma run_random_choose {T : Type} (first : T) (rest : list T) (g : rng) :
  run (random_choose first rest) g =
    let draw := run (random2 (Int.wrap (Z.of_nat (1 + length rest)))) g in
    ((first :: rest) !! Z.to_nat draw.1, draw.2).
Proof. unfold random_choose. by rewrite run_bind. Qed.

(** X1: [random_choose] never reads outside its array: whatever the
    generator and however many arguments there are, it returns one of its
    arguments. *)
Theorem random_choose_returns_argument {T : Type} (first : T) (rest : list T)
    (g : rng) :
  exists x, (run (random_choose first rest) g).1 = Some x /\
            x ∈ first :: rest.
Proof.
  rewrite run_random_choose. cbv zeta. cbn [fst].
  pose proof (random2_index (1 + length rest) g ltac:(lia)) as Hidx.
  destruct (lookup_lt_is_Some_2 (first :: rest) _ Hidx) as [x Hx].
  exists x. split; [done |]. by eapply list_elem_of_lookup_2.
Qed.

(** X2: the reference [random_choose_ref] returns designates one of the
    arguments, and the argument it designates is the value [random_choose]
    returns from the same state of the generator, which both leave in the
    same state. *)
Theorem random_choose_ref_designates_choice {T : Type} (first : T)
    (rest : list T) (g : rng) :
  exists p : nat,
    (run (random_choose_ref first rest) g).1 = Some p /\
    (p <= length rest)%nat /\
    (first :: rest) !! p = (run (random_choose first rest) g).1 /\
    (run (random_choose_ref first rest) g).2 =
      (run (random_choose first rest) g).2.
Proof.
  unfold random_choose_ref. rewrite !run_random_choose. cbv zeta.
  rewrite length_seq. cbn [fst snd].
  pose proof (random2_index (1 + length rest) g ltac:(lia)) as Hidx.
  set (i := Z.to_nat (run (random2 (Int.wrap (Z.of_nat (1 + length rest))))
                         g).1) in *.
  exists i. change (0%nat :: seq 1 (length rest)) with (seq 0 (S (length rest))).
  rewrite lookup_seq_lt by lia. split; [done |]. split; [lia | done].
Qed.

Lemma prob_random2_map {A : Type} (Q : A -> bool) (max : Z) (f : Z -> A) :
  0 < max ->
  prob Q (r ← random2 max; mret (f r)) =
    (sumQc (Z.to_nat max) (fun r => if Q (f (Z.of_nat r)) then 1 else 0)%Qc
     / Qc_of_Z max)%Qc.
Proof. intros Hmax. by rewrite prob_random2. Qed.

(** X3: when the number of arguments fits in an [int], [random_choose_ref]
    designates each argument with the same probability, one over the number
    of arguments. *)
Theorem random_choose_ref_uniform {T : Type} (first : T) (rest : list T)
    (p : nat) :
  Z.of_nat (1 + length rest) <= Int.INT_MAX ->
  (p <= length rest)%nat ->
  prob (fun o => bool_decide (o = Some p)) (random_choose_ref first rest) =
    (1 / Qc_of_Z (Z.of_nat (1 + length rest)))%Qc.
Proof.
  intros Hfit Hp. unfold random_choose_ref, random_choose.
  rewrite length_seq, Int_wrap_id by (apply in_range_nonneg; lia).
  rewrite prob_random2_map by lia. f_equal.
  rewrite (sumQc_ext _ _ (fun r => if (r =? p)%nat then 1 else 0)%Qc).
  - apply sumQc_point. lia.
  - intros r Hr. rewrite Nat2Z.id.
    change (0%nat :: seq 1 (length rest)) with (seq 0 (S (length rest))).
    rewrite lookup_seq_lt by lia. simpl.
    destruct (Nat.eqb_spec r p) as [-> | Hne].
    + by rewrite bool_decide_eq_true_2.
    + rewrite bool_decide_eq_false_2; [done | congruence].
Qed.

Lemma random_choose_ref_uniform_witness :
  prob (fun o => bool_decide (o = Some 2%nat))
       (random_choose_ref 10 [11; 12; 13]) =
    (1 / Qc_of_Z (Z.of_nat (1 + length [11; 12; 13])))%Qc.
Proof.
  apply (random_choose_ref_uniform 10 [11; 12; 13] 2).
  - vm_compute. discriminate.
  - simpl. lia.
Defined.

Lemma run_random_iterator {A : Type} (container : list A) (g : rng) :
  run (random_iterator container) g =
    let draw := run (random2 (Int.wrap (Z.of_nat (length container)))) g in
    (Z.to_nat draw.1, draw.2).
Proof. unfold random_iterator. by rewrite run_bind. Qed.

(** X4: on a non-empty container [random_iterator] returns an iterator to an
    element, never the past-the-end one; on an empty container it returns
    [begin()], which is [end()], and leaves the generator as it was.  When
    the size fits in an [int] every element is as likely as any other. *)
Theorem random_iterator_valid {A : Type} (container : list A) (g : rng) :
  (container <> [] ->
   is_Some (container !! (run (random_iterator container) g).1)) /\
  (container = [] -> run (random_iterator container) g = (0%nat, g)) /\
  (forall p : nat,
     Z.of_nat (length container) <= Int.INT_MAX ->
     (p < length container)%nat ->
     prob (fun it => (it =? p)%nat) (random_iterator container) =
       (1 / Qc_of_Z (Z.of_nat (length container)))%Qc).
Proof.
  split; [| split].
  - intros Hne. rewrite run_random_iterator. cbv zeta. cbn [fst].
    apply lookup_lt_is_Some_2, random2_index.
    destruct container; [done | simpl; lia].
  - by intros ->.
  - intros p Hfit Hp. unfold random_iterator.
    rewrite Int_wrap_id by (apply in_range_nonneg; lia).
    rewrite prob_random2_map by lia. f_equal.
    rewrite (sumQc_ext _ _ (fun r => if (r =? p)%nat then 1 else 0)%Qc).
    + apply sumQc_point. lia.
    + intros r Hr. by rewrite Nat2Z.id.
Qed.

Lemma random_iterator_valid_witness :
  is_Some ([10; 11; 12] !! (run (random_iterator [10; 11; 12]) sample_rng).1)
  /\
  prob (fun it => (it =? 1)%nat) (random_iterator [10; 11; 12]) =
    (1 / Qc_of_Z (Z.of_nat (length [10; 11; 12])))%Qc.
Proof.
  destruct (random_iterator_valid [10; 11; 12] sample_rng)
    as (Hvalid & _ & Huniform).
  split; [by apply Hvalid |].
  apply Huniform; [vm_compute; discriminate | simpl; lia].
Defined.

(** ** Shuffling part of an array *)

Lemma iter_swap_drop {A : Type} (n i j : nat) (l : list A) :
  (i < n)%nat -> (j < n)%nat -> drop n (iter_swap i j l) = drop n l.
Proof.
  intros Hi Hj. unfold iter_swap.
  destruct (l !! i) as [x |]; [| done].
  destruct (l !! j) as [y |]; [| done].
  by rewrite !drop_insert_lt.
Qed.

(** The loop for a count [k] leaves the elements from [n >= k] on where they
    are. *)
Lemma shuffle_array_loop_drop {A : Type} (k n : nat) (l : list A) (g : rng) :
  (k <= n)%nat -> drop n (run (shuffle_array_loop k l) g).1 = drop n l.
Proof.
  revert l g. induction k as [| k' IH]; intros l g Hk; [done |].
  destruct (Nat.eq_dec k' 0%nat) as [-> | Hk']; [done |].
  rewrite run_shuffle_array_loop by lia. cbv zeta.
  rewrite IH by lia. apply iter_swap_drop; [| lia].
  pose proof (random2_index (S k') g). lia.
Qed.

(** X5: [shuffle_array(arr, n)] with [n] within the array keeps the length
    of the array, leaves the elements from position [n] on in place, and
    permutes the first [n] among themselves; with [n] the whole length it is
    the shuffle of the whole container. *)
Theorem shuffle_array_ptr_prefix {A : Type} (arr : list A) (n : Z) (g : rng) :
  0 <= n <= Z.of_nat (length arr) ->
  let result := (run (shuffle_array_ptr arr n) g).1 in
  length result = length arr /\
  drop (Z.to_nat n) result = drop (Z.to_nat n) arr /\
  take (Z.to_nat n) result ≡ₚ take (Z.to_nat n) arr /\
  shuffle_array_ptr arr (Z.of_nat (length arr)) = shuffle_array_vec arr.
Proof.
  intros Hn result. subst result. unfold shuffle_array_ptr.
  pose proof (shuffle_array_loop_Permutation (Z.to_nat n) arr g) as Hperm.
  pose proof (shuffle_array_loop_drop (Z.to_nat n) (Z.to_nat n) arr g
                (Nat.le_refl _)) as Hdrop.
  set (result := (run (shuffle_array_loop (Z.to_nat n) arr) g).1) in *.
  split; [by apply Permutation_length |]. split; [done |]. split.
  - apply (Permutation_app_inv_r (drop (Z.to_nat n) arr)).
    rewrite <- Hdrop at 1. by rewrite !take_drop.
  - by rewrite Nat2Z.id.
Qed.

Lemma shuffle_array_ptr_prefix_witness :
  drop 3 (run (shuffle_array_ptr [1; 2; 3; 4; 5] 3) sample_rng).1 =
    drop 3 [1; 2; 3; 4; 5] /\
  take 3 (run (shuffle_array_ptr [1; 2; 3; 4; 5] 3) sample_rng).1 ≡ₚ
    take 3 [1; 2; 3; 4; 5].
Proof.
  destruct (shuffle_array_ptr_prefix [1; 2; 3; 4; 5] 3 sample_rng)
    as (_ & Hdrop & Htake & _); [simpl; lia |].
  split; [exact Hdrop | exact Htake].
Defined.

Lemma calls_bind {A B : Type} (t : Rand A) (f : A -> Rand B) (g : rng) :
  calls (t ≫= f) g = calls t g ++ calls (f (run t g).1) (run t g).2.
Proof.
  revert g. induction t as [a | max k IH]; intros g; simpl; [done |].
  f_equal. destruct (max <=? 0); [apply IH |].
  destruct (get_uint32 g) as [u g']. apply IH.
Qed.

Lemma calls_shuffle_array_loop {A : Type} (n : nat) (l : list A) (g : rng) :
  Z.of_nat n <= Int.INT_MAX ->
  calls (shuffle_array_loop n l) g = Z.of_nat <$> rev (seq 2 (n - 1)).
Proof.
  revert l g. induction n as [| n' IH]; intros l g Hn; [done |].
  destruct n' as [| m]; [done |].
  change (shuffle_array_loop (S (S m)) l)
    with (i ← random2 (Int.wrap (Z.of_nat (S (S m))));
          shuffle_array_loop (S m) (iter_swap (Z.to_nat i) (S m) l)).
  rewrite calls_bind, IH by lia.
  rewrite Int_wrap_id by (apply in_range_nonneg; lia).
  replace (S (S m) - 1)%nat with (S m) by lia.
  replace (S m - 1)%nat with m by lia.
  assert (calls (random2 (Z.of_nat (S (S m)))) g = [Z.of_nat (S (S m))])
    as ->.
  { unfold random2. simpl calls.
    destruct (Z.of_nat (S (S m)) <=? 0); [done |].
    by destruct (get_uint32 g). }
  rewrite seq_S, rev_app_distr. done.
Qed.

(** X6: on a sequence of fewer than two elements [shuffle_array] returns the
    sequence as it is and does not call [random2]; on a sequence of [n]
    elements it calls [random2] exactly [n - 1] times, with the arguments
    [n], [n - 1], ..., 2, whatever the elements are. *)
Theorem shuffle_array_calls {A : Type} (l : list A) (g : rng) :
  ((length l <= 1)%nat -> run (shuffle_array l) g = (l, g)) /\
  (Z.of_nat (length l) <= Int.INT_MAX ->
   calls (shuffle_array l) g = Z.of_nat <$> rev (seq 2 (length l - 1))).
Proof.
  split.
  - intros Hlen. unfold shuffle_array.
    destruct l as [| x [| y l]]; [done | done | simpl in Hlen; lia].
  - apply calls_shuffle_array_loop.
Qed.

Lemma shuffle_array_calls_witness :
  run (shuffle_array [7]) sample_rng = ([7], sample_rng) /\
  calls (shuffle_array [1; 2; 3; 4; 5]) sample_rng = [5; 4; 3; 2].
Proof.
  split.
  - apply (shuffle_array_calls [7] sample_rng). simpl. lia.
  - apply (shuffle_array_calls [1; 2; 3; 4; 5] sample_rng).
    vm_compute. discriminate.
Defined.

(** ** What the streaming variants return *)

Lemma x_chance_in_y_true_positive (x y : Z) (g : rng) :
  (run (x_chance_in_y x y) g).1 = true -> 0 < x.
Proof.
  unfold x_chance_in_y. destruct (Z.leb_spec x 0); [done | lia].
Qed.

Section CursorResults.
Context {K : Type} (weight : K -> Z).

Lemma run_random_choose_weighted_loop (result : nat) (found : bool)
    (totalweight : Z) (xs : nat) (x : K) (rest : list K) (g : rng) :
  run (random_choose_weighted_loop weight result found totalweight xs
         (x :: rest)) g =
    let chance :=
      run (x_chance_in_y (weight x) (Int.add totalweight (weight x))) g in
    if chance.1
    then run (random_choose_weighted_loop weight xs true
                (Int.add totalweight (weight x)) (S xs) rest) chance.2
    else run (random_choose_weighted_loop weight result found
                (Int.add totalweight (weight x)) (S xs) rest) chance.2.
Proof.
  rewrite random_choose_weighted_loop_cons, run_bind. cbv zeta.
  by destruct (run (x_chance_in_y _ _) g).1.
Qed.

Lemma run_random_choose_weighted_range_loop (result : nat) (totalweight : Z)
    (start : nat) (x : K) (rest : list K) (g : rng) :
  run (random_choose_weighted_range_loop weight result totalweight start
         (x :: rest)) g =
    let chance :=
      run (x_chance_in_y (weight x) (Int.add totalweight (weight x))) g in
    run (random_choose_weighted_range_loop weight
           (if chance.1 then start else result)
           (Int.add totalweight (weight x)) (S start) rest) chance.2.
Proof. by rewrite random_choose_weighted_range_loop_cons, run_bind. Qed.

(** The loop with the [found] flag is the loop that starts from [end]. *)
Lemma random_choose_weighted_loop_as_range (result : nat) (found : bool)
    (totalweight : Z) (xs : nat) (rest : list K) (g : rng) :
  run (random_choose_weighted_loop weight result found totalweight xs rest) g
  = run (random_choose_weighted_range_loop weight
           (if found then result else (xs + length rest)%nat)
           totalweight xs rest) g.
Proof.
  revert result found totalweight xs g.
  induction rest as [| x rest IH]; intros result found totalweight xs g.
  - simpl. by rewrite Nat.add_0_r.
  - rewrite run_random_choose_weighted_loop,
      run_random_choose_weighted_range_loop. cbv zeta.
    destruct (run (x_chance_in_y _ _) g).1; rewrite IH; [done |].
    simpl length. by rewrite Nat.add_succ_r.
Qed.

(** The loop keeps the result it had or moves it to an element of positive
    weight. *)
Lemma random_choose_weighted_range_loop_result (result : nat)
    (totalweight : Z) (start : nat) (rest : list K) (g : rng) :
  let final := (run (random_choose_weighted_range_loop weight result
                       totalweight start rest) g).1 in
  final = result \/
  ((start <= final < start + length rest)%nat /\
   exists x, rest !! (final - start)%nat = Some x /\ 0 < weight x).
Proof.
  revert result totalweight start g.
  induction rest as [| x rest IH]; intros result totalweight start g;
    [by left |].
  rewrite run_random_choose_weighted_range_loop. cbv zeta.
  pose proof (x_chance_in_y_true_positive (weight x)
                (Int.add totalweight (weight x)) g) as Hpos.
  set (chance := run (x_chance_in_y _ _) g) in *.
  specialize (IH (if chance.1 then start else result)
                 (Int.add totalweight (weight x)) (S start) chance.2).
  cbv zeta in IH. set (final := (run _ chance.2).1) in *. clearbody final.
  destruct IH as [-> | ((Hlo & Hhi) & x' & Hx' & Hpos')].
  - destruct chance.1; [| by left].
    right. split; [simpl length; lia |].
    exists x. rewrite Nat.sub_diag. split; [done | by apply Hpos].
  - right. split; [simpl length; lia |].
    exists x'. split; [| done].
    replace (final - start)%nat with (S (final - S start)) by lia. done.
Qed.
End CursorResults.

(** X7: the variant that takes a cursor and the variant that takes a range
    are the same function: from the same state of the generator they return
    the same position and leave the generator in the same state, whatever the
    weights. *)
Theorem random_choose_weighted_iter_is_range {K : Type} (seq : list K)
    (weight : K -> Z) (g : rng) :
  run (random_choose_weighted_iter seq weight) g =
    run (random_choose_weighted_range seq weight) g.
Proof.
  unfold random_choose_weighted_iter, random_choose_weighted_range.
  by rewrite random_choose_weighted_loop_as_range.
Qed.

(** X8: the cursor and range variants return the past-the-end position or
    the position of an element whose weight is positive; an element of
    weight zero or less is never chosen, whatever the other weights are. *)
Theorem random_choose_weighted_cursor_positive {K : Type} (seq : list K)
    (weight : K -> Z) (g : rng) :
  let chosen := (run (random_choose_weighted_range seq weight) g).1 in
  (run (random_choose_weighted_iter seq weight) g).1 = chosen /\
  (chosen = length seq \/
   exists x, seq !! chosen = Some x /\ 0 < weight x).
Proof.
  intros chosen. subst chosen. split.
  - unfold random_choose_weighted_iter, random_choose_weighted_range.
    by rewrite random_choose_weighted_loop_as_range.
  - unfold random_choose_weighted_range.
    destruct (random_choose_weighted_range_loop_result weight (length seq) 0
                0 seq g) as [Hend | (_ & x & Hx & Hpos)]; [by left |].
    right. exists x. by rewrite Nat.sub_0_r in Hx.
Qed.

(** X9: the argument-list variant returns its first value or a later value
    whose weight is positive: a value of weight zero or less, other than the
    first, is never chosen, whatever the other weights are. *)
Theorem random_choose_weighted_args_positive {K : Type} (cweight : Z)
    (curr : K) (args : list (Z * K)) (g : rng) :
  let chosen := (run (random_choose_weighted_args cweight curr args) g).1 in
  chosen = curr \/ exists nweight, (nweight, chosen) ∈ args /\ 0 < nweight.
Proof.
  revert cweight curr g.
  induction args as [| [nweight next] args IH]; intros cweight curr g;
    [by left |].
  rewrite run_random_choose_weighted_args. cbv zeta.
  pose proof (random2_nonneg (Int.add cweight nweight) g) as Hdraw.
  set (draw := run (random2 (Int.add cweight nweight)) g) in *.
  specialize (IH (Int.add cweight nweight)
                 (if draw.1 <? nweight then next else curr) draw.2).
  cbv zeta in IH. set (chosen := (run _ draw.2).1) in *. clearbody chosen.
  destruct IH as [-> | (w & Hin & Hpos)].
  - destruct (Z.ltb_spec draw.1 nweight); [| by left].
    right. exists nweight. split; [apply list_elem_of_here | lia].
  - right. exists w. split; [by apply list_elem_of_further | done].
Qed.

(** ** The distribution of the batch variants *)

Lemma mass_at_ext {K : Type} (P P' : nat -> bool) (i : nat)
    (choices : list (K * Z)) :
  (forall p, (i <= p < i + length choices)%nat -> P p = P' p) ->
  mass_at P i choices = mass_at P' i choices.
Proof.
  revert i. induction choices as [| [k w] rest IH]; intros i Hext; [done |].
  cbn [mass_at]. rewrite Hext by (simpl; lia). f_equal.
  apply IH. intros p Hp. apply Hext. simpl. lia.
Qed.

Lemma mass_at_none {K : Type} (P : nat -> bool) (i : nat)
    (choices : list (K * Z)) :
  (forall p, (i <= p)%nat -> P p = false) -> mass_at P i choices = 0.
Proof.
  revert i. induction choices as [| [k w] rest IH]; intros i Hnone; [done |].
  cbn [mass_at]. rewrite Hnone, IH; [done | | lia].
  intros p Hp. apply Hnone. lia.
Qed.

Lemma mass_at_point {K : Type} (i j : nat) (k : K) (w : Z)
    (choices : list (K * Z)) :
  (j <= i)%nat -> choices !! (i - j)%nat = Some (k, w) ->
  mass_at (fun p => (p =? i)%nat) j choices = w.
Proof.
  revert j. induction choices as [| [k' w'] rest IH]; intros j Hj Hlook;
    [done |].
  cbn [mass_at]. destruct (Nat.eqb_spec j i) as [-> | Hne].
  - rewrite Nat.sub_diag in Hlook. injection Hlook as -> ->.
    rewrite mass_at_none; [simpl; lia |].
    intros p Hp. apply Nat.eqb_neq. lia.
  - rewrite (IH (S j)); [lia | lia |].
    replace (i - j)%nat with (S (i - S j)) in Hlook by lia. done.
Qed.

(** X10: for non-negative weights with a positive total that fits in an
    [int], the variant over a collection returns a pointer to entry [i] with
    probability its weight over the total, and [nullptr] with probability
    zero. *)
Theorem random_choose_weighted_proportional {K : Type}
    (choices : list (K * Z)) (i : nat) (k : K) (w : Z) :
  weights_ok choices -> 0 < sum_weights choices ->
  choices !! i = Some (k, w) ->
  prob (fun r => bool_decide (r = Some i)) (random_choose_weighted choices) =
    (Qc_of_Z w / Qc_of_Z (sum_weights choices))%Qc /\
  prob (fun r => bool_decide (r = None)) (random_choose_weighted choices) =
    0%Qc.
Proof.
  intros Hok Htotal Hlook. rewrite !prob_random_choose_weighted_mass by done.
  split.
  - rewrite (mass_at_ext _ (fun p => (p =? i)%nat)).
    + by rewrite (mass_at_point i 0 k w) by (rewrite ?Nat.sub_0_r; done || lia).
    + intros p _. destruct (Nat.eqb_spec p i) as [-> | Hne].
      * by rewrite bool_decide_eq_true_2.
      * rewrite bool_decide_eq_false_2; [done | congruence].
  - rewrite mass_at_none by done. rewrite Z2Qc_inj_0.
    pose proof (Qc_of_Z_pos _ Htotal). by field.
Qed.

Lemma random_choose_weighted_proportional_witness :
  prob (fun r => bool_decide (r = Some 2%nat))
       (random_choose_weighted [(10%nat, 2); (11%nat, 0); (12%nat, 3)]) =
    (Qc_of_Z 3 / Qc_of_Z 5)%Qc.
Proof.
  apply (random_choose_weighted_proportional
           [(10%nat, 2); (11%nat, 0); (12%nat, 3)] 2 12%nat 3).
  - split; [repeat constructor; simpl; lia | vm_compute; discriminate].
  - vm_compute. reflexivity.
  - reflexivity.
Defined.

Lemma retained_from_nonneg (i : Z) (choices : list Z) :
  Forall (fun entry : Z * Z => 0 <= entry.2) (retained_from i choices).
Proof.
  revert i. induction choices as [| c rest IH]; intros i; simpl; [done |].
  destruct (Z.leb_spec c 0); [apply IH |].
  constructor; [simpl; lia | apply IH].
Qed.

Lemma sum_weights_retained (i : Z) (choices : list Z) :
  sum_weights (retained_from i choices) = sum_positive choices.
Proof.
  revert i. induction choices as [| c rest IH]; intros i; simpl; [done |].
  destruct (Z.leb_spec c 0); [rewrite IH; lia |].
  rewrite sum_weights_cons, IH. lia.
Qed.

Lemma mass_at_deref_fun {K : Type} (F : option K -> bool)
    (pre rest : list (K * Z)) :
  mass_at (fun p => F (deref (pre ++ rest) p)) (length pre) rest =
    mass (fun k => F (Some k)) rest.
Proof.
  revert pre. induction rest as [| [k w] rest IH]; intros pre; [done |].
  cbn [mass_at]. rewrite mass_cons. unfold deref at 1.
  rewrite list_lookup_middle by done. simpl fmap.
  specialize (IH (pre ++ [(k, w)])).
  replace ((pre ++ [(k, w)]) ++ rest) with (pre ++ (k, w) :: rest) in IH
    by (by rewrite <- (assoc app)).
  rewrite length_app, Nat.add_1_r in IH. by rewrite IH.
Qed.

(** In distribution too, the fixed-vector variant is the collection variant
    on the retained entries. *)
Lemma prob_random_choose_weighted_fixed (P : Z -> bool) (choices : list Z) :
  prob P (random_choose_weighted_fixed choices) =
    prob (fun r => P (default (-1) (r ≫= deref (retained choices))))
         (random_choose_weighted (retained choices)).
Proof.
  unfold random_choose_weighted_fixed, random_choose_weighted.
  assert (fixed_total choices = total_weight (retained choices)) as ->.
  { unfold fixed_total, total_weight, retained.
    apply (fixed_total_as_choices 0 0 choices). }
  assert (forall r, P (fixed_scan r 0 0 choices) =
                    P (default (-1) (scan_choices r 0 0 (retained choices)
                                     ≫= deref (retained choices)))) as Hleaf.
  { intros r. unfold retained.
    rewrite (fixed_scan_as_choices r 0 0 0 choices).
    destruct (scan_choices _ _ _ _) as [p |]; [| done].
    by rewrite Nat.sub_0_r. }
  destruct (Z.le_gt_cases (total_weight (retained choices)) 0) as [Hle | Hgt].
  - rewrite !prob_random2_zero, !prob_ret by done. by rewrite Hleaf.
  - rewrite !prob_random2 by lia. f_equal. apply sumQc_ext. intros r _.
    rewrite !prob_ret. by rewrite Hleaf.
Qed.

Lemma mass_retained_below (i j : Z) (choices : list Z) :
  i < j -> mass (fun k => k =? i) (retained_from j choices) = 0.
Proof.
  revert j. induction choices as [| c rest IH]; intros j Hij; simpl; [done |].
  destruct (Z.leb_spec c 0); [apply IH; lia |].
  rewrite mass_cons, IH by lia.
  destruct (Z.eqb_spec j i); lia.
Qed.

Lemma mass_retained_point (j : Z) (n : nat) (w : Z) (choices : list Z) :
  choices !! n = Some w ->
  mass (fun k => k =? j + Z.of_nat n) (retained_from j choices) = Z.max 0 w.
Proof.
  revert j n. induction choices as [| c rest IH]; intros j n Hlook; [done |].
  simpl retained_from. destruct n as [| n].
  - injection Hlook as ->. rewrite Z.add_0_r.
    destruct (Z.leb_spec w 0).
    + rewrite mass_retained_below; lia.
    + rewrite mass_cons, mass_retained_below, Z.eqb_refl; lia.
  - simpl in Hlook.
    replace (j + Z.of_nat (S n)) with (j + 1 + Z.of_nat n) by lia.
    destruct (Z.leb_spec c 0); [by apply IH |].
    rewrite mass_cons, IH by done.
    destruct (Z.eqb_spec j (j + 1 + Z.of_nat n)); lia.
Qed.

(** X11: when the retained weights sum to a positive [int], the fixed-vector
    variant returns index [i] with probability its weight over the sum of the
    retained weights if that weight is positive, and with probability zero if
    it is not; it returns -1 with probability zero. *)
Theorem random_choose_weighted_fixed_proportional (choices : list Z)
    (i : nat) (w : Z) :
  sum_positive choices <= Int.INT_MAX -> 0 < sum_positive choices ->
  choices !! i = Some w ->
  prob (fun r => r =? Z.of_nat i) (random_choose_weighted_fixed choices) =
    (Qc_of_Z (Z.max 0 w) / Qc_of_Z (sum_positive choices))%Qc /\
  prob (fun r => r =? -1) (random_choose_weighted_fixed choices) = 0%Qc.
Proof.
  intros Hfit Htotal Hlook.
  assert (weights_ok (retained choices)) as Hok.
  { split; [apply retained_from_nonneg |].
    unfold retained. by rewrite sum_weights_retained. }
  assert (sum_weights (retained choices) = sum_positive choices) as Hsum
    by apply sum_weights_retained.
  assert (forall P : Z -> bool,
            prob P (random_choose_weighted_fixed choices) =
              (Qc_of_Z (mass P (retained choices))
               / Qc_of_Z (sum_positive choices))%Qc) as Hprob.
  { intros P. rewrite prob_random_choose_weighted_fixed.
    rewrite prob_random_choose_weighted_mass by (rewrite ?Hsum; done).
    rewrite Hsum. f_equal. f_equal.
    apply (mass_at_deref_fun (fun o => P (default (-1) o)) []
             (retained choices)). }
  rewrite !Hprob. split.
  - unfold retained.
    pose proof (mass_retained_point 0 i w choices Hlook) as Hmass.
    rewrite Z.add_0_l in Hmass. by rewrite Hmass.
  - unfold retained. rewrite mass_retained_below by lia.
    rewrite Z2Qc_inj_0. pose proof (Qc_of_Z_pos _ Htotal). by field.
Qed.

Lemma random_choose_weighted_fixed_proportional_witness :
  prob (fun r => r =? Z.of_nat 3) (random_choose_weighted_fixed [3; -4; 0; 6])
  = (Qc_of_Z 6 / Qc_of_Z 9)%Qc.
Proof.
  apply (random_choose_weighted_fixed_proportional [3; -4; 0; 6] 3 6).
  - vm_compute. discriminate.
  - vm_compute. reflexivity.
  - reflexivity.
Defined.

(** ** The distribution of the choice with an assertion *)

Lemma prob_fmap {A B : Type} (Q : B -> bool) (f : A -> B) (t : Rand A) :
  prob Q (t ≫= fun a => mret (f a)) = prob (fun a => Q (f a)) t.
Proof.
  induction t as [a | max k IH]; [done |].
  change (Random2 max k ≫= (fun a => mret (f a)))
    with (Random2 max (fun r => k r ≫= (fun a => mret (f a)))).
  cbn [prob]. destruct (max <=? 0); [apply IH |].
  f_equal. apply sumQc_ext. intros r _. apply IH.
Qed.

Lemma sum_range_nonneg (range : list Z) :
  Forall (fun w => 0 <= w) range -> 0 <= sum_range range.
Proof. induction 1; simpl; lia. Qed.

Lemma mass_from_ext (P P' : Z -> bool) (count : Z) (range : list Z) :
  (forall p, count <= p -> P p = P' p) ->
  mass_from P count range = mass_from P' count range.
Proof.
  revert count. induction range as [| w rest IH]; intros count Hext; [done |].
  cbn [mass_from]. rewrite Hext by lia. f_equal.
  apply IH. intros p Hp. apply Hext. lia.
Qed.

Lemma mass_from_none (P : Z -> bool) (count : Z) (range : list Z) :
  (forall p, count <= p -> P p = false) -> mass_from P count range = 0.
Proof.
  revert count. induction range as [| w rest IH]; intros count Hnone; [done |].
  cbn [mass_from]. rewrite Hnone, IH; [done | | lia].
  intros p Hp. apply Hnone. lia.
Qed.

Lemma mass_from_point (count : Z) (n : nat) (w : Z) (range : list Z) :
  range !! n = Some w ->
  mass_from (fun p => p =? count + Z.of_nat n) count range = w.
Proof.
  revert count n. induction range as [| w' rest IH]; intros count n Hlook;
    [done |].
  cbn [mass_from]. destruct n as [| n].
  - injection Hlook as ->. rewrite Z.add_0_r, Z.eqb_refl.
    rewrite mass_from_none; [lia |].
    intros p Hp. apply Z.eqb_neq. lia.
  - simpl in Hlook.
    replace (count + Z.of_nat (S n)) with (count + 1 + Z.of_nat n) by lia.
    rewrite IH by done.
    destruct (Z.eqb_spec count (count + 1 + Z.of_nat n)); lia.
Qed.

(** The loop of [choose_random_weighted] ends on a position satisfying [P]
    with the probability the weights give to such positions; [totalweight]
    is the weight already seen, all of it won by [result]. *)
Lemma prob_choose_random_weighted_loop (P : Z -> bool)
    (totalweight result count : Z) (beg : list Z) :
  Forall (fun w => 0 <= w) beg ->
  0 <= totalweight ->
  totalweight + sum_range beg <= Int.INT_MAX ->
  0 < totalweight + sum_range beg ->
  prob P (choose_random_weighted_loop totalweight result count beg) =
    (Qc_of_Z ((if P result then totalweight else 0) + mass_from P count beg)
     / Qc_of_Z (totalweight + sum_range beg))%Qc.
Proof.
  intros Hpos. revert totalweight result count.
  induction Hpos as [| w beg Hw Hbeg IH];
    intros totalweight result count Htot Hfit Htotal.
  - cbn [sum_range mass_from foldr] in *. rewrite !Z.add_0_r in *.
    cbn [choose_random_weighted_loop]. rewrite prob_ret.
    pose proof (Qc_of_Z_pos _ Htotal).
    destruct (P result); [by field | rewrite Z2Qc_inj_0; by field].
  - pose proof (sum_range_nonneg _ Hbeg) as Hrest.
    change (sum_range (w :: beg)) with (w + sum_range beg) in *.
    cbn [mass_from choose_random_weighted_loop].
    rewrite Int_add_exact by (apply in_range_nonneg; lia).
    destruct (Z.eq_dec (totalweight + w) 0) as [Hzero | Hnz].
    + assert (totalweight = 0) as -> by lia. assert (w = 0) as -> by lia.
      rewrite prob_random2_zero by done. change (0 <? 0) with false.
      change (0 + 0) with 0. cbn iota. rewrite IH by lia.
      by destruct (P result), (P count).
    + assert (0 < totalweight + w) as Hcn by lia.
      rewrite (prob_random2_cases P (totalweight + w) w _
                 (prob P (choose_random_weighted_loop (totalweight + w)
                            count (count + 1) beg))
                 (prob P (choose_random_weighted_loop (totalweight + w)
                            result (count + 1) beg))); [| lia | lia |].
      2:{ intros r _. by destruct (r <? w). }
      rewrite !IH by lia.
      replace (totalweight + w - w) with totalweight by lia.
      replace (totalweight + (w + sum_range beg))
        with (totalweight + w + sum_range beg) by lia.
      pose proof (Qc_of_Z_pos _ Hcn) as Hcn0.
      assert (0 < totalweight + w + sum_range beg) as Ht by lia.
      pose proof (Qc_of_Z_pos _ Ht) as Ht0.
      destruct (P result), (P count);
        rewrite ?Z.add_0_l, ?Z2Qc_inj_add in *; field; done.
Qed.

(** X12: for non-negative weights with a positive total that fits in an
    [int], [choose_random_weighted] returns position [i] with probability its
    weight over the total, and fails its assertion with probability zero. *)
Theorem choose_random_weighted_proportional (range : list Z) (i : nat)
    (w : Z) :
  Forall (fun w => 0 <= w) range ->
  sum_range range <= Int.INT_MAX -> 0 < sum_range range ->
  range !! i = Some w ->
  prob (fun o => match o with
                 | Returned r => r =? Z.of_nat i
                 | AssertFailed => false
                 end) (choose_random_weighted range) =
    (Qc_of_Z w / Qc_of_Z (sum_range range))%Qc /\
  prob (fun o => match o with
                 | Returned _ => false
                 | AssertFailed => true
                 end) (choose_random_weighted range) = 0%Qc.
Proof.
  intros Hpos Hfit Htotal Hlook. unfold choose_random_weighted.
  rewrite !prob_fmap.
  rewrite !prob_choose_random_weighted_loop by (done || lia).
  rewrite !Z.add_0_l. split.
  - rewrite (mass_from_ext _ (fun p => p =? 0 + Z.of_nat i)).
    + by rewrite (mass_from_point 0 i w range Hlook).
    + intros p Hp. unfold ASSERT. rewrite Z.add_0_l.
      by destruct (Z.leb_spec 0 p); [| lia].
  - rewrite mass_from_none.
    + pose proof (Qc_of_Z_pos _ Htotal). rewrite Z2Qc_inj_0. by field.
    + intros p Hp. unfold ASSERT. by destruct (Z.leb_spec 0 p); [| lia].
Qed.

Lemma choose_random_weighted_proportional_witness :
  prob (fun o => match o with
                 | Returned r => r =? Z.of_nat 1
                 | AssertFailed => false
                 end) (choose_random_weighted [0; 4; 1]) =
    (Qc_of_Z 4 / Qc_of_Z 5)%Qc.
Proof.
  apply (choose_random_weighted_proportional [0; 4; 1] 1 4).
  - repeat constructor; lia.
  - vm_compute. discriminate.
  - vm_compute. reflexivity.
  - reflexivity.
Defined.

(** ** Numbers drawn from a deferred random node *)

Lemma Qc_floor_below (q : Qc) : (Qc_of_Z (Qc_floor q) ≤ q)%Qc.
Proof. unfold Qcle, Qc_floor. simpl. apply Qfloor_le. Qed.

Lemma Qc_floor_above (q : Qc) : (q < Qc_of_Z (Qc_floor q + 1))%Qc.
Proof. unfold Qclt, Qc_floor. simpl. apply Qlt_floor. Qed.

Lemma Qc_floor_lt (q : Qc) (z : Z) :
  (q < Qc_of_Z z)%Qc <-> Qc_floor q < z.
Proof.
  split.
  - intros Hq. apply Z2Qc_inj_lt.
    apply Qcle_lt_trans with q; [apply Qc_floor_below | done].
  - intros Hz. apply Qclt_le_trans with (Qc_of_Z (Qc_floor q + 1)).
    + apply Qc_floor_above.
    + apply (proj1 (Z2Qc_inj_le _ _)). lia.
Qed.

Lemma Qc_floor_nonneg (q : Qc) : (0 ≤ q)%Qc -> 0 <= Qc_floor q.
Proof.
  intros Hq. change 0 with (Qc_floor 0%Qc) at 1. by apply Qc_floor_mono.
Qed.

Lemma Qc_of_Z_positive (z : Z) : 0 < z -> (0 < Qc_of_Z z)%Qc.
Proof.
  intros Hz. rewrite <- Z2Qc_inj_0. by apply (proj1 (Z2Qc_inj_lt 0 z)).
Qed.

Module defer_rand_numbers.
Import defer_rand.

Lemma fraction_of_lt_1 (bs : list Z) :
  Forall (fun b => 0 <= b < Int.modulus) bs -> (fraction_of bs < 1)%Qc.
Proof.
  induction 1 as [| b bs Hb _ IH]; simpl; [done |].
  assert (0 < Qc_of_Z Int.modulus)%Qc as Hm by by apply Qc_of_Z_positive.
  apply (Qcmult_lt_mono_pos_r _ _ (Qc_of_Z Int.modulus) Hm).
  unfold Qcdiv. rewrite <- Qcmult_assoc, Qcmult_inv_l, Qcmult_1_r, Qcmult_1_l
    by by apply Qclt_not_eq in Hm.
  apply Qclt_le_trans with (Qc_of_Z b + 1)%Qc.
  - by apply Qcplus_lt_mono_l.
  - rewrite <- Z2Qc_inj_1, <- Z2Qc_inj_add.
    apply (proj1 (Z2Qc_inj_le _ _)). lia.
Qed.

(** The fraction a node holds after its first access. *)
Lemma fraction_resolve_range (nd : t) (g : rng) :
  wf nd -> (0 ≤ fraction (resolve nd g).1 < 1)%Qc.
Proof.
  intros Hwf. apply (defer_rand_facts.resolve_wf nd g) in Hwf. split.
  - by apply defer_rand_facts.fraction_of_nonneg.
  - by apply fraction_of_lt_1.
Qed.

(** With a positive second argument the chance test compares the fraction
    times that argument with the first argument. *)
Lemma chance_as_product (f : Qc) (x y : Z) :
  0 < y ->
  bool_decide (f < Qc_of_Z x / Qc_of_Z y)%Qc =
    bool_decide (f * Qc_of_Z y < Qc_of_Z x)%Qc.
Proof.
  intros Hy. pose proof (Qc_of_Z_positive y Hy) as Hy'.
  apply bool_decide_ext.
  rewrite (Qcmult_lt_mono_pos_r f _ (Qc_of_Z y) Hy').
  unfold Qcdiv. rewrite <- Qcmult_assoc, Qcmult_inv_l, Qcmult_1_r; [done |].
  by apply Qclt_not_eq in Hy'.
Qed.

End defer_rand_numbers.

Lemma defer_rand_random2_range_aux (nd : defer_rand.t) (g : rng) (m : Z) :
  defer_rand.wf nd -> 0 < m ->
  0 <= Qc_floor (defer_rand.fraction (defer_rand.resolve nd g).1
                 * Qc_of_Z m)%Qc < m.
Proof.
  intros Hwf Hm.
  destruct (defer_rand_numbers.fraction_resolve_range nd g Hwf) as [H0 H1].
  pose proof (Qc_of_Z_positive m Hm) as Hm'. split.
  - apply Qc_floor_nonneg, Qcmult_nonneg_nonneg; [done |].
    by apply Qclt_le_weak.
  - apply Qc_floor_lt.
    rewrite <- (Qcmult_1_l (Qc_of_Z m)) at 2.
    by apply Qcmult_lt_mono_pos_r.
Qed.

(** X13: on a node whose words are 32-bit values (the methods modelled from
    the specification as for C1), [random2(m)] with [m > 0] returns a number
    in [0, m), on the first access and on every later one. *)
Theorem defer_rand_random2_range (nd : defer_rand.t) (g g' : rng) (m : Z) :
  defer_rand.wf nd -> 0 < m ->
  0 <= (defer_rand.random2 m nd g).1 < m /\
  0 <= (defer_rand.random2 m (defer_rand.resolve nd g).1 g').1 < m.
Proof.
  intros Hwf Hm.
  rewrite !defer_rand_facts.random2_resolve,
    defer_rand_facts.resolve_resolved. cbn [fst].
  pose proof (defer_rand_random2_range_aux nd g m Hwf Hm). done.
Qed.

Lemma defer_rand_random2_range_witness :
  0 <= (defer_rand.random2 1000 defer_rand.fresh sample_rng).1 < 1000.
Proof.
  apply (defer_rand_random2_range defer_rand.fresh sample_rng sample_rng 1000).
  - constructor.
  - lia.
Defined.

(** X14: as the comment of the class says, the numbers a node returns for
    two arguments are in proportion up to rounding: for positive [X] and [Y],
    [random2(X) / X] and [random2(Y) / Y] are both within one step of the
    same fraction, so [random2(X) * Y < (random2(Y) + 1) * X] and the same
    with [X] and [Y] exchanged (methods modelled from the specification as
    for C1). *)
Theorem defer_rand_random2_proportional (nd : defer_rand.t) (g g' : rng)
    (X Y : Z) :
  defer_rand.wf nd -> 0 < X -> 0 < Y ->
  let rX := (defer_rand.random2 X nd g).1 in
  let rY := (defer_rand.random2 Y (defer_rand.resolve nd g).1 g').1 in
  rX * Y < (rY + 1) * X /\ rY * X < (rX + 1) * Y.
Proof.
  intros Hwf HX HY rX rY. subst rX rY.
  rewrite !defer_rand_facts.random2_resolve,
    defer_rand_facts.resolve_resolved. cbn [fst].
  destruct (defer_rand_numbers.fraction_resolve_range nd g Hwf) as [H0 _].
  set (f := defer_rand.fraction (defer_rand.resolve nd g).1) in *.
  assert (forall a b : Z, 0 < a -> 0 < b ->
            Qc_floor (f * Qc_of_Z a)%Qc * b
            < (Qc_floor (f * Qc_of_Z b)%Qc + 1) * a) as Hstep.
  { intros a b Ha Hb.
    pose proof (Qc_of_Z_positive a Ha) as Ha'.
    pose proof (Qc_of_Z_positive b Hb) as Hb'.
    apply Z2Qc_inj_lt. rewrite !Z2Qc_inj_mul.
    apply Qcle_lt_trans with (f * Qc_of_Z a * Qc_of_Z b)%Qc.
    - apply Qcmult_le_mono_nonneg_r; [by apply Qclt_le_weak |].
      apply Qc_floor_below.
    - replace (f * Qc_of_Z a * Qc_of_Z b)%Qc
        with (f * Qc_of_Z b * Qc_of_Z a)%Qc by ring.
      apply Qcmult_lt_mono_pos_r; [done |]. apply Qc_floor_above. }
  split; by apply Hstep.
Qed.

Lemma defer_rand_random2_proportional_witness :
  (defer_rand.random2 10 defer_rand.fresh sample_rng).1 * 1000 <
  ((defer_rand.random2 1000
      (defer_rand.resolve defer_rand.fresh sample_rng).1 sample_rng).1 + 1)
  * 10.
Proof.
  apply (defer_rand_random2_proportional defer_rand.fresh sample_rng
           sample_rng 10 1000).
  - constructor.
  - lia.
  - lia.
Defined.

(** X15: on a node, the chance test and [random2] answer from the same
    fraction: for [y > 0], [x_chance_in_y(x, y)] is true exactly when
    [random2(y)] is below [x], and [one_chance_in(n)], which the header
    defines as [x_chance_in_y(1, n)], is true exactly when [random2(n)] is 0
    (methods modelled from the specification as for C1). *)
Theorem defer_rand_chance_is_random2 (nd : defer_rand.t) (g g' : rng)
    (x y : Z) :
  defer_rand.wf nd -> 0 < y ->
  let nd' := (defer_rand.resolve nd g).1 in
  (defer_rand.x_chance_in_y x y nd g).1 =
    ((defer_rand.random2 y nd' g').1 <? x) /\
  (defer_rand.one_chance_in y nd g).1 =
    ((defer_rand.random2 y nd' g').1 =? 0).
Proof.
  intros Hwf Hy nd'. subst nd'. unfold defer_rand.one_chance_in.
  rewrite !defer_rand_facts.x_chance_in_y_resolve,
    !defer_rand_facts.random2_resolve, defer_rand_facts.resolve_resolved.
  cbn [fst]. rewrite !defer_rand_numbers.chance_as_product by done.
  pose proof (defer_rand_random2_range_aux nd g y Hwf Hy) as Hrange.
  set (r := Qc_floor _) in *.
  assert (forall z : Z,
            bool_decide
              (defer_rand.fraction (defer_rand.resolve nd g).1 * Qc_of_Z y
               < Qc_of_Z z)%Qc = (r <? z)) as Hlt.
  { intros z. destruct (Z.ltb_spec r z) as [Hz | Hz].
    - apply bool_decide_eq_true_2. by apply Qc_floor_lt.
    - apply bool_decide_eq_false_2. rewrite Qc_floor_lt. fold r. lia. }
  split; [apply Hlt |]. rewrite Hlt.
  destruct (Z.ltb_spec r 1), (Z.eqb_spec r 0); (done || lia).
Qed.

Lemma defer_rand_chance_is_random2_witness :
  (defer_rand.x_chance_in_y 2 3 defer_rand.fresh sample_rng).1 =
    ((defer_rand.random2 3
        (defer_rand.resolve defer_rand.fresh sample_rng).1 sample_rng).1
     <? 2).
Proof.
  apply (defer_rand_chance_is_random2 defer_rand.fresh sample_rng sample_rng
           2 3).
  - constructor.
  - lia.
Defined.

(** ** Wide integers in the generic chance test *)

Lemma Int_wrap_period (z k : Z) : Int.wrap (z + k * Int.modulus) = Int.wrap z.
Proof.
  unfold Int.wrap.
  replace (z + k * Int.modulus + 2147483648)
    with (z + 2147483648 + k * Int.modulus) by lia.
  by rewrite Z.mod_add.
Qed.

(** X16: the template converts integral arguments with [int(x)], so only
    their low 32 bits count: adding a multiple of 2^32 to a [long long]
    argument changes nothing, and an [unsigned] first argument above
    [INT_MAX] becomes negative, which makes the test false whatever the
    second (integral) argument is, without a draw. *)
Theorem x_chance_in_y_generic_truncates `{FloatModel} (g : rng) :
  (forall x y k j : Z,
     x_chance_in_y_generic t_long_long t_long_long
       (x + k * Int.modulus) (y + j * Int.modulus) g =
     x_chance_in_y_generic t_long_long t_long_long x y g) /\
  (forall (U : numeric) (y : value U) (x : Z),
     is_floating_point U = false ->
     Int.INT_MAX < x < Int.modulus ->
     x_chance_in_y_generic t_unsigned U x y g = (false, g)).
Proof.
  split.
  - intros x y k j. unfold x_chance_in_y_generic. simpl.
    by rewrite !Int_wrap_period.
  - intros U y x HU Hx. unfold x_chance_in_y_generic. rewrite HU. simpl.
    unfold x_chance_in_y.
    assert (Int.wrap x <= 0) as Hneg.
    { unfold Int.wrap, Int.modulus, Int.INT_MAX in *.
      replace (x + 2147483648) with (x - 2147483648 + 1 * 4294967296) by lia.
      rewrite Z.mod_add, Z.mod_small by lia. lia. }
    destruct (Z.leb_spec (Int.wrap x) 0); [done | lia].
Qed.

Lemma x_chance_in_y_generic_truncates_witness :
  x_chance_in_y_generic t_unsigned t_int 3000000000 5 sample_rng =
    (false, sample_rng).
Proof.
  destruct (x_chance_in_y_generic_truncates sample_rng) as [_ Hunsigned].
  apply (Hunsigned t_int 5 3000000000); [done |].
  unfold Int.INT_MAX, Int.modulus. lia.
Defined.

(** ** Evaluations *)

Example shuffle_array_sample :
  shuffle_draws 5 sample_rng = [1; 2; 2; 0]%nat /\
  (run (shuffle_array [1; 2; 3; 4; 5]) sample_rng).1 = [5; 1; 4; 3; 2].
Proof. by vm_compute. Qed.

Example random_choose_weighted_sample :
  (run (random_choose_weighted [(10%nat, 2); (11%nat, 0); (12%nat, 3)])
       sample_rng).1 = Some 0%nat /\
  (run (random_choose_weighted_fixed [3; -4; 0; 6]) sample_rng).1 = 3 /\
  (run (random_choose_weighted_args 1 10%nat [(2, 11%nat); (0, 12%nat)])
       sample_rng).1 = 11%nat /\
  (run (random_choose_weighted_iter [10; 11; 12] (fun x => x - 10))
       sample_rng).1 = 2%nat /\
  (run (choose_random_weighted [0; 4; 1]) sample_rng).1 = Returned 1.
Proof. by vm_compute. Qed.

Example defer_rand_sample :
  (defer_rand.x_chance_in_y 1 2 defer_rand.fresh sample_rng).1 = false /\
  (defer_rand.x_chance_in_y 2 3 defer_rand.fresh sample_rng).1 = true /\
  (defer_rand.random2 10 defer_rand.fresh sample_rng).1 = 6 /\
  (defer_rand.random2 1000 defer_rand.fresh sample_rng).1 = 618.
Proof. by vm_compute. Qed.

Example prob_sample :
  prob (fun v => (v =? 11)%nat)
       (random_choose_weighted_args 1 10%nat [(2, 11%nat); (0, 12%nat)]) =
    (Qc_of_Z 2 / Qc_of_Z 3)%Qc.
Proof. apply Qc_is_canon. by vm_compute. Qed.
